(** * The DID registry and resolver of [main.go]

    A shallow embedding of the registry ([VerifiableDataRegistry]) and of
    its resolver ([DIDResolver]): the two methods [RegisterDID] and
    [ResolveDID], the mutex they take and the map they guard.

    Go values are modelled as follows.
    - [string] is a Rocq [string].
    - A slice [[]T] is [option (list T)]: [None] is the nil slice.
    - A map [map[K]V] is [option (gmap K V)]: [None] is the nil map, which
      can be read (every key is absent) but not written (the write panics).
    - [*VerifiableDataRegistry] is a location in a store of registries, or
      nil.  The resolver keeps such a pointer, so a registration through the
      registry is seen by every resolver bound to the same location.
    - [*DIDDocument], as returned by [ResolveDID], always points to a cell
      allocated by the call itself ([&doc], the address of a local copy).
      Nobody else holds that cell, so the pointer is represented by the
      document it points to ([addr_of]), or it is [nil_ptr].
    - [error] is [option string]: [None] is the nil error.
    - [sync.Mutex] is its state, free or held.  [Lock] on a held mutex does
      not return ([Blocked]); [Unlock] on a free mutex is the run-time's
      fatal error. *)

From stdpp Require Import gmap strings list fin_maps.

Set Default Proof Using "Type".

(** ** Data model (main.go, lines 12-39) *)

Record VerificationMethod := {
  vm_ID : string;
  vm_Type : string;
  vm_Controller : string;
  vm_PublicKey : option (list Byte.byte)
}.

Record DIDDocument := {
  doc_Context : string;
  doc_ID : string;
  doc_Controller : string;
  doc_VerificationMethods : option (list VerificationMethod);
  doc_VerificationRelations : option (gmap string (option (list string)));
  doc_ServiceEndPoints : option (gmap string string)
}.

(** The zero value of [DIDDocument]: what [var doc DIDDocument] holds, and
    what indexing a map yields for an absent key. *)
Definition zero_DIDDocument : DIDDocument := {|
  doc_Context := "";
  doc_ID := "";
  doc_Controller := "";
  doc_VerificationMethods := None;
  doc_VerificationRelations := None;
  doc_ServiceEndPoints := None
|}.

Inductive Mutex := Unlocked | Locked.

Record VerifiableDataRegistry := {
  mu : Mutex;
  records : option (gmap string DIDDocument)
}.

(** The zero value [VerifiableDataRegistry{}]: free mutex, nil map. *)
Definition zero_VerifiableDataRegistry : VerifiableDataRegistry :=
  {| mu := Unlocked; records := None |}.

(** [VerifiableDataRegistry{records: m}] for a map [m] that was made: the
    registry as [main] builds it (line 89), at rest, holding [m]. *)
Definition registry_with (m : gmap string DIDDocument) : VerifiableDataRegistry :=
  {| mu := Unlocked; records := Some m |}.

Abbreviation loc := positive (only parsing).

Inductive pointer (A : Type) :=
  | nil_ptr
  | addr_of (a : A).
Arguments nil_ptr {A}.
Arguments addr_of {A} a.

Record DIDResolver := {
  registry : pointer loc
}.

Definition error := option string.

(** The store: the registries that have been allocated, by location. *)
Abbreviation store := (gmap loc VerifiableDataRegistry) (only parsing).

(** ** Calls: results, panics and blocking *)

Inductive outcome (A : Type) :=
  | Returned (a : A) (s : store)
  | Panicked (msg : string) (s : store)
  | Blocked.
Arguments Returned {A} a s.
Arguments Panicked {A} msg s.
Arguments Blocked {A}.

(** The value a call returns, if it returns. *)
Definition value_of {A} (o : outcome A) : option A :=
  match o with
  | Returned a _ => Some a
  | _ => None
  end.

Definition M (A : Type) : Type := store -> outcome A.

Definition ret {A} (a : A) : M A := fun s => Returned a s.

Definition bind {A B} (c : M A) (k : A -> M B) : M B := fun s =>
  match c s with
  | Returned a s1 => k a s1
  | Panicked msg s1 => Panicked msg s1
  | Blocked => Blocked
  end.

Definition panic {A} (msg : string) : M A := fun s => Panicked msg s.

Declare Scope go_scope.
Delimit Scope go_scope with go.
Notation "'let*' p := c1 'in' c2" := (bind c1 (fun p => c2))
  (at level 10, p pattern, c1 at level 99, c2 at level 200) : go_scope.
Notation "c1 ;; c2" := (bind c1 (fun _ => c2))
  (at level 100, c2 at level 200, right associativity) : go_scope.
Open Scope go_scope.

(** [defer f(); body]: [f] runs when [body] is left, by a return or by a
    panic.  A panic of the body is kept after [f] has run. *)
Definition defer {A} (f : M unit) (body : M A) : M A := fun s =>
  match body s with
  | Returned a s1 =>
      match f s1 with
      | Returned _ s2 => Returned a s2
      | Panicked msg s2 => Panicked msg s2
      | Blocked => Blocked
      end
  | Panicked msg s1 =>
      match f s1 with
      | Returned _ s2 => Panicked msg s2
      | Panicked msg' s2 => Panicked msg' s2
      | Blocked => Blocked
      end
  | Blocked => Blocked
  end.

Definition nil_dereference : string :=
  "runtime error: invalid memory address or nil pointer dereference".

(** Dereference of a registry pointer.  A location outside the store does
    not occur in Go (there are no dangling pointers); the model treats it
    like nil. *)
Definition deref (p : pointer loc) : M (loc * VerifiableDataRegistry) := fun s =>
  match p with
  | nil_ptr => Panicked nil_dereference s
  | addr_of l =>
      match s !! l with
      | Some r => Returned (l, r) s
      | None => Panicked nil_dereference s
      end
  end.

(** [p.mu.Lock()] *)
Definition Lock (p : pointer loc) : M unit :=
  let* (l, r) := deref p in
  match mu r with
  | Unlocked => fun s => Returned tt (<[l := {| mu := Locked; records := records r |}]> s)
  | Locked => fun _ => Blocked
  end.

(** [p.mu.Unlock()] *)
Definition Unlock (p : pointer loc) : M unit :=
  let* (l, r) := deref p in
  match mu r with
  | Locked => fun s => Returned tt (<[l := {| mu := Unlocked; records := records r |}]> s)
  | Unlocked => panic "sync: unlock of unlocked mutex"
  end.

(** [p.records[key] = doc] *)
Definition map_assign (p : pointer loc) (key : string) (doc : DIDDocument) : M unit :=
  let* (l, r) := deref p in
  match records r with
  | Some m => fun s => Returned tt (<[l := {| mu := mu r; records := Some (<[key := doc]> m) |}]> s)
  | None => panic "assignment to entry in nil map"
  end.

(** [doc, found := p.records[key]], on a map value: the zero value and
    [false] for an absent key, and for every key of the nil map. *)
Definition map_index (recs : option (gmap string DIDDocument)) (key : string)
  : DIDDocument * bool :=
  match recs with
  | Some m =>
      match m !! key with
      | Some doc => (doc, true)
      | None => (zero_DIDDocument, false)
      end
  | None => (zero_DIDDocument, false)
  end.

Definition map_read (p : pointer loc) (key : string) : M (DIDDocument * bool) :=
  let* (_, r) := deref p in
  ret (map_index (records r) key).

(** ** The two methods (main.go, lines 46-60) *)

(** [func (registry *VerifiableDataRegistry) RegisterDID(doc DIDDocument) error] *)
Definition RegisterDID (registry : pointer loc) (doc : DIDDocument) : M error :=
  Lock registry;;
  defer (Unlock registry) (
    map_assign registry (doc_ID doc) doc;;
    ret None).

(** [func (resolver *DIDResolver) ResolveDID(did string)], returning a
    [*DIDDocument] and a [bool].  The receiver is given as the resolver it
    points to: the method only reads its [registry] field. *)
Definition ResolveDID (resolver : DIDResolver) (did : string)
  : M (pointer DIDDocument * bool) :=
  Lock (registry resolver);;
  defer (Unlock (registry resolver)) (
    let* (doc, found) := map_read (registry resolver) did in
    ret (addr_of doc, found)).

(** ** Construction, as in [main] (main.go, lines 89-92) *)

(** [&v] for a variable holding [v]: a new cell of the store. *)
Definition alloc (v : VerifiableDataRegistry) : M (pointer loc) := fun s =>
  let l := fresh (dom s) in Returned (addr_of l) (<[l := v]> s).

(** [make(map[string]DIDDocument)] *)
Definition make_records : option (gmap string DIDDocument) := Some ∅.

(** ** The flow of [main] (main.go, lines 63-109)

    Key generation and the JSON rendering are the standard library's; the
    flow takes the outcome of [NewDIDController] (the marshalled public key,
    or the error) and yields the line it prints. *)

Inductive printed :=
  | Error_creating_controller (err : string)
  | Error_registering_DID (err : string)
  | DID_not_found_in_registry
  | Resolved_DID_Document (verifiedDoc : pointer DIDDocument).

Definition main_doc (publicKeyBytes : list Byte.byte) : DIDDocument :=
  let verMethod := {|
    vm_ID := "key1";
    vm_Type := "EcdsaSecp256k1VerificationKey2019";
    vm_Controller := "subject1";
    vm_PublicKey := Some publicKeyBytes
  |} in
  let subjectID := "subject1" in
  let did := "did:example:" +:+ subjectID in
  {|
    doc_Context := "https://www.w3.org/ns/did/v1";
    doc_ID := did;
    doc_Controller := subjectID;
    doc_VerificationMethods := Some [verMethod];
    doc_VerificationRelations := Some {[ "authentication" := Some ["key1"] ]};
    doc_ServiceEndPoints := Some {[ "profile" := "https://profile.example.com/subject1" ]}
  |}.

Definition main (controllerKey : list Byte.byte + string) : M printed :=
  match controllerKey with
  | inr err => ret (Error_creating_controller err)
  | inl publicKeyBytes =>
      let doc := main_doc publicKeyBytes in
      let did := doc_ID doc in
      let* registry := alloc {| mu := Unlocked; records := make_records |} in
      let resolver := {| registry := registry |} in
      let* err := RegisterDID registry doc in
      match err with
      | Some e => ret (Error_registering_DID e)
      | None =>
          let* (verifiedDoc, found) := ResolveDID resolver did in
          if negb found then ret DID_not_found_in_registry
          else ret (Resolved_DID_Document verifiedDoc)
      end
  end.

(** ** What the two methods compute, case by case *)

Definition RegisterDID_cases (registry : pointer loc) (doc : DIDDocument) : M error := fun s =>
  match registry with
  | nil_ptr => Panicked nil_dereference s
  | addr_of l =>
      match s !! l with
      | None => Panicked nil_dereference s
      | Some r =>
          match mu r, records r with
          | Locked, _ => Blocked
          | Unlocked, None => Panicked "assignment to entry in nil map" s
          | Unlocked, Some m =>
              Returned None (<[l := registry_with (<[doc_ID doc := doc]> m)]> s)
          end
      end
  end.

Definition ResolveDID_cases (resolver : DIDResolver) (did : string)
  : M (pointer DIDDocument * bool) := fun s =>
  match registry resolver with
  | nil_ptr => Panicked nil_dereference s
  | addr_of l =>
      match s !! l with
      | None => Panicked nil_dereference s
      | Some r =>
          match mu r with
          | Locked => Blocked
          | Unlocked =>
              Returned (addr_of (map_index (records r) did).1,
                        (map_index (records r) did).2) s
          end
      end
  end.

(** The document a map value holds under a key, if any. *)
Definition stored (recs : option (gmap string DIDDocument)) (did : string)
  : option DIDDocument :=
  match recs with
  | Some m => m !! did
  | None => None
  end.

(** Registering the documents of a list, one call after the other. *)
Fixpoint register_all (registry : pointer loc) (docs : list DIDDocument) : M unit :=
  match docs with
  | [] => ret tt
  | doc :: rest => RegisterDID registry doc ;; register_all registry rest
  end.

(** The map after these calls, on a registry that held [m]. *)
Definition insert_all (docs : list DIDDocument) (m : gmap string DIDDocument)
  : gmap string DIDDocument :=
  foldl (fun acc doc => <[doc_ID doc := doc]> acc) m docs.

(** ** Concurrent callers of [RegisterDID]

    A goroutine inside [RegisterDID] is the frame of the call (receiver and
    argument) and the line it is about to run.  The goroutines share the
    store; one of them moves at a time.  [Lock] on a held mutex is not a
    move: the goroutine waits at line 48. *)

Inductive pc :=
  | line48                      (* registry.mu.Lock() *)
  | line49                      (* defer registry.mu.Unlock() *)
  | line50                      (* registry.records[doc.ID] = doc *)
  | line51                      (* return nil, through the deferred Unlock *)
  | unwinding (msg : string)    (* panicking, the deferred Unlock is due *)
  | returned (e : error)
  | crashed (msg : string).

Record goroutine := {
  g_registry : pointer loc;
  g_doc : DIDDocument;
  g_pc : pc
}.

(** [go registry.RegisterDID(doc)] *)
Definition call_RegisterDID (registry : pointer loc) (doc : DIDDocument) : goroutine :=
  {| g_registry := registry; g_doc := doc; g_pc := line48 |}.

Definition goto (g : goroutine) (to : pc) : goroutine :=
  {| g_registry := g_registry g; g_doc := g_doc g; g_pc := to |}.

(** The next move of a goroutine, line by line.  The panic of line 50 runs
    the deferred [Unlock] before the goroutine ends; so does the return of
    line 51. *)
Definition step_goroutine (g : goroutine) (s : store) : option (goroutine * store) :=
  match g_pc g with
  | line48 =>
      match Lock (g_registry g) s with
      | Returned _ s' => Some (goto g line49, s')
      | Panicked msg s' => Some (goto g (crashed msg), s')
      | Blocked => None
      end
  | line49 => Some (goto g line50, s)
  | line50 =>
      match map_assign (g_registry g) (doc_ID (g_doc g)) (g_doc g) s with
      | Returned _ s' => Some (goto g line51, s')
      | Panicked msg s' => Some (goto g (unwinding msg), s')
      | Blocked => None
      end
  | line51 =>
      match Unlock (g_registry g) s with
      | Returned _ s' => Some (goto g (returned None), s')
      | Panicked msg s' => Some (goto g (crashed msg), s')
      | Blocked => None
      end
  | unwinding msg =>
      match Unlock (g_registry g) s with
      | Returned _ s' => Some (goto g (crashed msg), s')
      | Panicked msg' s' => Some (goto g (crashed msg'), s')
      | Blocked => None
      end
  | returned _ | crashed _ => None
  end.

(** The moves the goroutine still has to make. *)
Definition remaining (p : pc) : nat :=
  match p with
  | line48 => 4
  | line49 => 3
  | line50 => 2
  | line51 => 1
  | unwinding _ => 1
  | returned _ | crashed _ => 0
  end.

(** The mutex, given the goroutine that holds it, if any. *)
Definition mutex_of (owner : option nat) : Mutex :=
  match owner with Some _ => Locked | None => Unlocked end.

(** ** Sequences of calls *)

Inductive call :=
  | Register (doc : DIDDocument)
  | Resolve (did : string).

Inductive result :=
  | Registered (err : error)
  | Resolved (doc : pointer DIDDocument) (found : bool).

(** One call through the registry pointer; [Resolve] goes through a
    resolver bound to it. *)
Definition perform (registry : pointer loc) (c : call) : M result :=
  match c with
  | Register doc =>
      let* err := RegisterDID registry doc in
      ret (Registered err)
  | Resolve did =>
      let* (doc, found) := ResolveDID {| registry := registry |} did in
      ret (Resolved doc found)
  end.

Fixpoint perform_all (registry : pointer loc) (cs : list call) : M (list result) :=
  match cs with
  | [] => ret []
  | c :: rest =>
      let* r := perform registry c in
      let* rs := perform_all registry rest in
      ret (r :: rs)
  end.

(** The document of the last [Register] of the list under [did], if any. *)
Fixpoint last_registered (did : string) (cs : list call) : option DIDDocument :=
  match cs with
  | [] => None
  | c :: rest =>
      match last_registered did rest with
      | Some doc => Some doc
      | None =>
          match c with
          | Register doc => if decide (doc_ID doc = did) then Some doc else None
          | Resolve _ => None
          end
      end
  end.

(** What resolving [did] returns on a map that holds [entry] under it. *)
Definition resolved_entry (entry : option DIDDocument) : result :=
  match entry with
  | Some doc => Resolved (addr_of doc) true
  | None => Resolved (addr_of zero_DIDDocument) false
  end.

(** The map after the calls, on a registry that held [m]. *)
Definition map_after (cs : list call) (m : gmap string DIDDocument)
  : gmap string DIDDocument :=
  foldl (fun acc c => match c with
                      | Register doc => <[doc_ID doc := doc]> acc
                      | Resolve _ => acc
                      end) m cs.

(** Every stored document sits under its own identifier. *)
Definition keyed (m : gmap string DIDDocument) : Prop :=
  forall did doc, m !! did = Some doc -> doc_ID doc = did.

(** The result of one call, on a registry that holds [m]. *)
Definition result_on (c : call) (m : gmap string DIDDocument) : result :=
  match c with
  | Register _ => Registered None
  | Resolve did => resolved_entry (m !! did)
  end.

(** The results of the calls, on a registry that held [m]. *)
Fixpoint results_of (cs : list call) (m : gmap string DIDDocument) : list result :=
  match cs with
  | [] => []
  | c :: rest => result_on c m :: results_of rest (map_after [c] m)
  end.

(** ** Concurrent callers of both methods

    A goroutine inside [ResolveDID], like the one inside [RegisterDID]
    above: the frame of the call and the line it is about to run.  Line 58
    copies the map entry into the local [doc]; line 59 returns its address
    through the deferred [Unlock].  Every line is one move: enough for
    what the mutex alone decides, who is inside and who can move. *)

Inductive rpc :=
  | line56                                      (* resolver.registry.mu.Lock() *)
  | line57                                      (* defer resolver.registry.mu.Unlock() *)
  | line58                                      (* doc, found := resolver.registry.records[did] *)
  | line59 (doc : DIDDocument) (found : bool)   (* return &doc, found *)
  | r_unwinding (msg : string)
  | r_returned (doc : pointer DIDDocument) (found : bool)
  | r_crashed (msg : string).

Record resolving := {
  r_resolver : DIDResolver;
  r_did : string;
  r_pc : rpc
}.

(** [go resolver.ResolveDID(did)] *)
Definition call_ResolveDID (resolver : DIDResolver) (did : string) : resolving :=
  {| r_resolver := resolver; r_did := did; r_pc := line56 |}.

Definition r_goto (g : resolving) (to : rpc) : resolving :=
  {| r_resolver := r_resolver g; r_did := r_did g; r_pc := to |}.

Definition step_resolving (g : resolving) (s : store)
  : option (resolving * store) :=
  match r_pc g with
  | line56 =>
      match Lock (registry (r_resolver g)) s with
      | Returned _ s' => Some (r_goto g line57, s')
      | Panicked msg s' => Some (r_goto g (r_crashed msg), s')
      | Blocked => None
      end
  | line57 => Some (r_goto g line58, s)
  | line58 =>
      match map_read (registry (r_resolver g)) (r_did g) s with
      | Returned (doc, found) s' => Some (r_goto g (line59 doc found), s')
      | Panicked msg s' => Some (r_goto g (r_unwinding msg), s')
      | Blocked => None
      end
  | line59 doc found =>
      match Unlock (registry (r_resolver g)) s with
      | Returned _ s' => Some (r_goto g (r_returned (addr_of doc) found), s')
      | Panicked msg s' => Some (r_goto g (r_crashed msg), s')
      | Blocked => None
      end
  | r_unwinding msg =>
      match Unlock (registry (r_resolver g)) s with
      | Returned _ s' => Some (r_goto g (r_crashed msg), s')
      | Panicked msg' s' => Some (r_goto g (r_crashed msg'), s')
      | Blocked => None
      end
  | r_returned _ _ | r_crashed _ => None
  end.

Inductive thread :=
  | Registering (g : goroutine)
  | Resolving (g : resolving).

Definition step_thread (t : thread) (s : store)
  : option (thread * store) :=
  match t with
  | Registering g =>
      match step_goroutine g s with
      | Some (g', s') => Some (Registering g', s')
      | None => None
      end
  | Resolving g =>
      match step_resolving g s with
      | Some (g', s') => Some (Resolving g', s')
      | None => None
      end
  end.

(** [go] of one call, through the registry pointer. *)
Definition spawn (registry : pointer loc) (c : call) : thread :=
  match c with
  | Register doc => Registering (call_RegisterDID registry doc)
  | Resolve did => Resolving (call_ResolveDID {| registry := registry |} did)
  end.

(** What the call has returned, once it has. *)
Definition thread_result (t : thread) : option result :=
  match t with
  | Registering g =>
      match g_pc g with
      | returned err => Some (Registered err)
      | _ => None
      end
  | Resolving g =>
      match r_pc g with
      | r_returned doc found => Some (Resolved doc found)
      | _ => None
      end
  end.

Record program := {
  threads : list thread;
  memory : store
}.

(** The scheduler lets thread [i] make its next move, if it has one. *)
Definition dispatch (i : nat) (c : program) : option program :=
  match threads c !! i with
  | Some t =>
      match step_thread t (memory c) with
      | Some (t', s') => Some {| threads := <[i := t']> (threads c); memory := s' |}
      | None => None
      end
  | None => None
  end.

Definition moves (c c' : program) : Prop := exists i, dispatch i c = Some c'.

Fixpoint run_program (sched : list nat) (c : program) : option program :=
  match sched with
  | [] => Some c
  | i :: rest =>
      match dispatch i c with
      | Some c' => run_program rest c'
      | None => None
      end
  end.

(** One goroutine per call, all on the same registry. *)
Definition go_calls (registry : pointer loc) (cs : list call)
    (s : store) : program :=
  {| threads := spawn registry <$> cs; memory := s |}.

Definition all_done (c : program) : Prop :=
  Forall (fun t => is_Some (thread_result t)) (threads c).

(** The calls of the list in the order of the indices. *)
Definition pick (cs : list call) (order : list nat) : list call :=
  omap (fun j => cs !! j) order.

(** Where a thread is: before its [Lock], between [Lock] and [Unlock],
    returned; [Astray] gathers the lines of a panic and the return of an
    error. *)
Inductive phase := Waiting | Inside | Done | Astray.

Definition thread_phase (t : thread) : phase :=
  match t with
  | Registering g =>
      match g_pc g with
      | line48 => Waiting
      | line49 | line50 | line51 => Inside
      | returned None => Done
      | _ => Astray
      end
  | Resolving g =>
      match r_pc g with
      | line56 => Waiting
      | line57 | line58 | line59 _ _ => Inside
      | r_returned _ _ => Done
      | _ => Astray
      end
  end.

(** The thread runs this call through this registry pointer. *)
Definition runs (registry : pointer loc) (c : call) (t : thread) : Prop :=
  match c, t with
  | Register doc, Registering g => g_registry g = registry /\ g_doc g = doc
  | Resolve did, Resolving g => r_resolver g = {| registry := registry |} /\ r_did g = did
  | _, _ => False
  end.

(** The map while the thread is inside, given the map [md] left by the
    calls that have returned: the assignment of line 50 shows from line 51
    on; what line 58 has read is the entry of [md]. *)
Definition inside_view (t : thread) (md mc : gmap string DIDDocument) : Prop :=
  match t with
  | Registering g =>
      match g_pc g with
      | line51 => mc = <[doc_ID (g_doc g) := g_doc g]> md
      | _ => mc = md
      end
  | Resolving g =>
      match r_pc g with
      | line59 doc found => mc = md /\ (doc, found) = map_index (Some md) (r_did g)
      | _ => mc = md
      end
  end.

Definition thread_remaining (t : thread) : nat :=
  match t with
  | Registering g => remaining (g_pc g)
  | Resolving g =>
      match r_pc g with
      | line56 => 4
      | line57 => 3
      | line58 => 2
      | line59 _ _ => 1
      | r_unwinding _ => 1
      | r_returned _ _ | r_crashed _ => 0
      end
  end.

Definition program_moves_left (c : program) : nat :=
  sum_list (thread_remaining <$> threads c).

(** What holds of every program state that [go_calls] can reach on a
    registry at [l] that held [m] and was at rest in [s].  [hist] lists the
    calls that have returned, in the order in which they took the mutex;
    the map and the results are those of performing these calls one after
    the other, up to what the thread inside has done so far. *)
Definition linv (s : store) (l : positive)
    (m : gmap string DIDDocument) (cs : list call) (c : program) : Prop :=
  exists (hist : list nat) (owner : option nat) (mc : gmap string DIDDocument),
    memory c = <[l := {| mu := mutex_of owner; records := Some mc |}]> s
    /\ length (threads c) = length cs
    /\ NoDup hist
    /\ (forall j, j ∈ hist -> j < length cs)
    /\ (forall j t, threads c !! j = Some t ->
          exists call, cs !! j = Some call
            /\ runs (addr_of l) call t
            /\ thread_phase t <> Astray
            /\ (thread_phase t = Inside <-> owner = Some j)
            /\ (thread_phase t = Done <-> j ∈ hist))
    /\ (forall k j, hist !! k = Some j ->
          threads c !! j ≫= thread_result = results_of (pick cs hist) m !! k)
    /\ match owner with
       | Some j => exists t, threads c !! j = Some t
                             /\ inside_view t (map_after (pick cs hist) m) mc
       | None => mc = map_after (pick cs hist) m
       end.

(** ** Concurrent callers, with the accesses to the map that overlap

    In the goroutines above an access to the map is one move, so two
    accesses never overlap, whatever the mutex does.  Here the assignment
    of line 50 takes two moves, its begin and its end, and the registry
    whose map is being assigned to is marked in between.  An access to a
    marked map overlaps that assignment: a data race.  The run-time stops
    the program when it notices one ([fatal error: concurrent map writes],
    [concurrent map read and map write]); the model takes every overlap
    for that error.  A panic that no caller recovers stops the program as
    well, after the deferred [Unlock] of the goroutine.

    Both methods have the same four lines, so one type of stage serves
    both: [st_Lock] is line 48 or 56, [st_defer] line 49 or 57,
    [st_access] line 50 or 58, [st_return] line 51 or 59 with the result
    that the [return] statement has set. *)

Inductive stage :=
  | st_Lock
  | st_defer
  | st_access
  | st_assigning                 (* line 50, between its begin and its end *)
  | st_return (r : result)
  | st_unwinding (msg : string)  (* panicking, the deferred Unlock is due *)
  | st_returned (r : result)
  | st_crashed (msg : string).

Record caller := {
  c_registry : pointer loc;
  c_call : call;
  c_stage : stage
}.

(** [go registry.RegisterDID(doc)], or [go resolver.ResolveDID(did)] for a
    resolver bound to [registry]. *)
Definition start_call (registry : pointer loc) (c : call) : caller :=
  {| c_registry := registry; c_call := c; c_stage := st_Lock |}.

Definition at_stage (c : caller) (st : stage) : caller :=
  {| c_registry := c_registry c; c_call := c_call c; c_stage := st |}.

Definition concurrent_map_writes : string := "concurrent map writes".

Definition concurrent_map_read_and_map_write : string :=
  "concurrent map read and map write".

(** What a move leaves: the stage of the caller, the store, the marked
    registries, and the error that has stopped the program, if any. *)
Record left_by_move := {
  l_stage : stage;
  l_store : store;
  l_marks : gset positive;
  l_down : option string
}.

Definition caller_move (c : caller) (s : store) (mk : gset positive)
  : option left_by_move :=
  let goes st s' := Some {| l_stage := st; l_store := s'; l_marks := mk; l_down := None |} in
  let stops msg s' :=
    Some {| l_stage := st_crashed msg; l_store := s'; l_marks := mk; l_down := Some msg |} in
  match c_stage c with
  | st_Lock =>
      match Lock (c_registry c) s with
      | Returned _ s' => goes st_defer s'
      | Panicked msg s' => stops msg s'
      | Blocked => None
      end
  | st_defer => goes st_access s
  | st_access =>
      match deref (c_registry c) s with
      | Returned (l, r) _ =>
          match c_call c, records r with
          | Register _, None => goes (st_unwinding "assignment to entry in nil map") s
          | Register _, Some _ =>
              if decide (l ∈ mk) then stops concurrent_map_writes s
              else Some {| l_stage := st_assigning; l_store := s;
                           l_marks := {[l]} ∪ mk; l_down := None |}
          | Resolve did, None =>
              goes (st_return (Resolved (addr_of zero_DIDDocument) false)) s
          | Resolve did, Some _ =>
              if decide (l ∈ mk) then stops concurrent_map_read_and_map_write s
              else goes (st_return (Resolved (addr_of (map_index (records r) did).1)
                                      (map_index (records r) did).2)) s
          end
      | Panicked msg _ => goes (st_unwinding msg) s
      | Blocked => None
      end
  | st_assigning =>
      match c_call c, c_registry c with
      | Register doc, addr_of l =>
          if decide (l ∈ mk) then
            match map_assign (c_registry c) (doc_ID doc) doc s with
            | Returned _ s' =>
                Some {| l_stage := st_return (Registered None); l_store := s';
                        l_marks := mk ∖ {[l]}; l_down := None |}
            | Panicked msg _ => goes (st_unwinding msg) s
            | Blocked => None
            end
          else stops concurrent_map_writes s
      | _, _ => None
      end
  | st_return r =>
      match Unlock (c_registry c) s with
      | Returned _ s' => goes (st_returned r) s'
      | Panicked msg s' => stops msg s'
      | Blocked => None
      end
  | st_unwinding msg =>
      match Unlock (c_registry c) s with
      | Returned _ s' => stops msg s'
      | Panicked msg' s' => stops msg' s'
      | Blocked => None
      end
  | st_returned _ | st_crashed _ => None
  end.

Record world := {
  callers : list caller;
  heap : store;
  marks : gset positive;
  down : option string
}.

(** The scheduler lets caller [i] make its next move, if it has one and the
    program has not stopped. *)
Definition let_move (i : nat) (w : world) : option world :=
  match down w, callers w !! i with
  | None, Some c =>
      match caller_move c (heap w) (marks w) with
      | Some lm =>
          Some {| callers := <[i := at_stage c (l_stage lm)]> (callers w);
                  heap := l_store lm; marks := l_marks lm; down := l_down lm |}
      | None => None
      end
  | _, _ => None
  end.

Definition turns (w w' : world) : Prop := exists i, let_move i w = Some w'.

Fixpoint run_world (sched : list nat) (w : world) : option world :=
  match sched with
  | [] => Some w
  | i :: rest =>
      match let_move i w with
      | Some w' => run_world rest w'
      | None => None
      end
  end.

(** One goroutine per call, all on the same registry; no assignment is
    under way. *)
Definition go_world (registry : pointer loc) (cs : list call) (s : store) : world :=
  {| callers := start_call registry <$> cs; heap := s; marks := ∅; down := None |}.

(** What the call has returned, once it has. *)
Definition caller_result (c : caller) : option result :=
  match c_stage c with
  | st_returned r => Some r
  | _ => None
  end.

Definition all_back (w : world) : Prop :=
  Forall (fun c => is_Some (caller_result c)) (callers w).

Definition caller_phase (c : caller) : phase :=
  match c_stage c with
  | st_Lock => Waiting
  | st_defer | st_access | st_return _ => Inside
  | st_assigning =>
      match c_call c with
      | Register _ => Inside
      | Resolve _ => Astray
      end
  | st_returned _ => Done
  | _ => Astray
  end.

(** The moves of a call: five for [RegisterDID], four for [ResolveDID]. *)
Definition moves_of (c : call) : nat :=
  match c with
  | Register _ => 5
  | Resolve _ => 4
  end.

Definition caller_remaining (c : caller) : nat :=
  match c_stage c with
  | st_Lock => moves_of (c_call c)
  | st_defer => moves_of (c_call c) - 1
  | st_access => moves_of (c_call c) - 2
  | st_assigning => 2
  | st_return _ => 1
  | st_unwinding _ => 1
  | st_returned _ | st_crashed _ => 0
  end.

Definition world_moves_left (w : world) : nat :=
  sum_list (caller_remaining <$> callers w).

(** The map and the marks while the caller is inside, given the map [md]
    left by the calls that have returned. *)
Definition caller_view (c : caller) (l : positive)
    (md mc : gmap string DIDDocument) (mk : gset positive) : Prop :=
  match c_stage c with
  | st_assigning => mc = md /\ mk = {[l]}
  | st_return r =>
      mc = map_after [c_call c] md /\ r = result_on (c_call c) md /\ mk = ∅
  | _ => mc = md /\ mk = ∅
  end.

(** What holds of every world that [go_world] can reach on a registry at
    [l] that held [m] and was at rest in [s]: the program has not stopped;
    [hist] lists the calls that have returned, in the order in which they
    took the mutex; the map and the results are those of performing these
    calls one after the other, up to what the caller inside has done. *)
Definition winv (s : store) (l : positive) (m : gmap string DIDDocument)
    (cs : list call) (w : world) : Prop :=
  exists (hist : list nat) (owner : option nat) (mc : gmap string DIDDocument),
    heap w = <[l := {| mu := mutex_of owner; records := Some mc |}]> s
    /\ down w = None
    /\ length (callers w) = length cs
    /\ NoDup hist
    /\ (forall j, j ∈ hist -> j < length cs)
    /\ (forall j c, callers w !! j = Some c ->
          c_registry c = addr_of l
          /\ cs !! j = Some (c_call c)
          /\ caller_phase c <> Astray
          /\ (caller_phase c = Inside <-> owner = Some j)
          /\ (caller_phase c = Done <-> j ∈ hist))
    /\ (forall k j, hist !! k = Some j ->
          callers w !! j ≫= caller_result = results_of (pick cs hist) m !! k)
    /\ match owner with
       | Some j => exists c, callers w !! j = Some c
                             /\ caller_view c l (map_after (pick cs hist) m) mc (marks w)
       | None => mc = map_after (pick cs hist) m /\ marks w = ∅
       end.

(** ** Sample data *)

Definition alice : DIDDocument := {|
  doc_Context := "https://www.w3.org/ns/did/v1";
  doc_ID := "did:example:alice";
  doc_Controller := "alice";
  doc_VerificationMethods := Some [];
  doc_VerificationRelations := Some {[ "authentication" := Some ["key1"] ]};
  doc_ServiceEndPoints := Some {[ "profile" := "https://profile.example.com/alice" ]}
|}.

(** Same identifier as [alice], another controller. *)
Definition alice2 : DIDDocument := {|
  doc_Context := "https://www.w3.org/ns/did/v1";
  doc_ID := "did:example:alice";
  doc_Controller := "alice-rotated";
  doc_VerificationMethods := None;
  doc_VerificationRelations := None;
  doc_ServiceEndPoints := None
|}.

Definition bob : DIDDocument := {|
  doc_Context := "https://www.w3.org/ns/did/v1";
  doc_ID := "did:example:bob";
  doc_Controller := "bob";
  doc_VerificationMethods := None;
  doc_VerificationRelations := None;
  doc_ServiceEndPoints := None
|}.

(** A store with one registry, as [main] makes it, at location 1, and one
    zero-value registry at location 2. *)
Definition sample_store : gmap positive VerifiableDataRegistry :=
  {[ 1%positive := registry_with ∅; 2%positive := zero_VerifiableDataRegistry ]}.

Definition sample_resolver : DIDResolver := {| registry := addr_of 1%positive |}.

(** Three calls at once: two registrations under one identifier and a
    resolution of it.  In the sample schedule the registration of [alice2]
    takes the mutex first, then the resolution, then the registration of
    [alice]. *)
Definition sample_calls : list call :=
  [Register alice; Resolve "did:example:alice"; Register alice2].

Definition sample_dispatch : list nat := [2; 2; 2; 2; 1; 1; 1; 1; 0; 0; 0; 0].

Definition sample_done : program := {|
  threads :=
    [Registering (goto (call_RegisterDID (addr_of 1%positive) alice) (returned None));
     Resolving (r_goto (call_ResolveDID sample_resolver "did:example:alice")
                  (r_returned (addr_of alice2) true));
     Registering (goto (call_RegisterDID (addr_of 1%positive) alice2) (returned None))];
  memory := <[1%positive := registry_with {[ "did:example:alice" := alice ]}]> sample_store
|}.

(** The registry at location 1 holds [alice]. *)
Definition sample_store_alice : store :=
  {[ 1%positive := registry_with {[ "did:example:alice" := alice ]} ]}.

(** After one move of the sample schedule: the registration of [alice2]
    holds the mutex. *)
Definition sample_locked : program := {|
  threads :=
    [Registering (call_RegisterDID (addr_of 1%positive) alice);
     Resolving (call_ResolveDID sample_resolver "did:example:alice");
     Registering (goto (call_RegisterDID (addr_of 1%positive) alice2) line49)];
  memory := <[1%positive := {| mu := Locked; records := Some ∅ |}]> sample_store
|}.

(** Two registrations at once; bob's takes the mutex first. *)
Definition sample_turns : list nat := [1; 1; 1; 1; 1; 0; 0; 0; 0; 0].

Definition sample_world_back : world := {|
  callers :=
    [at_stage (start_call (addr_of 1%positive) (Register alice))
       (st_returned (Registered None));
     at_stage (start_call (addr_of 1%positive) (Register bob))
       (st_returned (Registered None))];
  heap := <[1%positive := registry_with (insert_all [alice; bob] ∅)]> sample_store;
  marks := ∅;
  down := None
|}.

(** The three calls of [sample_calls] at once: the registration of [alice2]
    takes the mutex first, then the resolution, then the registration of
    [alice]. *)
Definition sample_calls_turns : list nat :=
  [2; 2; 2; 2; 2; 1; 1; 1; 1; 0; 0; 0; 0; 0].

Definition sample_calls_back : world := {|
  callers :=
    [at_stage (start_call (addr_of 1%positive) (Register alice))
       (st_returned (Registered None));
     at_stage (start_call (addr_of 1%positive) (Resolve "did:example:alice"))
       (st_returned (Resolved (addr_of alice2) true));
     at_stage (start_call (addr_of 1%positive) (Register alice2))
       (st_returned (Registered None))];
  heap := <[1%positive := registry_with {[ "did:example:alice" := alice ]}]> sample_store;
  marks := ∅;
  down := None
|}.

(** After three moves: the registration of [alice2] is between the begin
    and the end of its assignment. *)
Definition sample_assigning : world := {|
  callers :=
    [start_call (addr_of 1%positive) (Register alice);
     start_call (addr_of 1%positive) (Resolve "did:example:alice");
     at_stage (start_call (addr_of 1%positive) (Register alice2)) st_assigning];
  heap := <[1%positive := {| mu := Locked; records := Some ∅ |}]> sample_store;
  marks := {[1%positive]};
  down := None
|}.

(** * Proofs *)

Ltac go_unfold :=
  unfold RegisterDID, ResolveDID, Lock, Unlock, map_assign, map_read,
    deref, defer, bind, ret, panic.

Lemma relock_id (s : store) l r :
  s !! l = Some r -> mu r = Unlocked ->
  <[l := {| mu := Unlocked; records := records r |}]> s = s.
Proof.
  intros Hl Hm. apply insert_id. rewrite Hl. destruct r as [u recs].
  simpl in *. by subst.
Qed.

Lemma RegisterDID_eq registry doc s :
  RegisterDID registry doc s = RegisterDID_cases registry doc s.
Proof.
  unfold RegisterDID_cases. go_unfold.
  destruct registry as [|l]; [done|].
  destruct (s !! l) as [r|] eqn:Hl; [|done].
  destruct (mu r) eqn:Hm; [|done].
  rewrite !lookup_insert_eq. simpl.
  destruct (records r) as [m|] eqn:Hr; simpl.
  - rewrite !lookup_insert_eq. simpl. by rewrite !insert_insert_eq.
  - rewrite !lookup_insert_eq. simpl. rewrite !insert_insert_eq.
    f_equal. rewrite <- Hr. by apply relock_id.
Qed.

Lemma ResolveDID_eq resolver did s :
  ResolveDID resolver did s = ResolveDID_cases resolver did s.
Proof.
  unfold ResolveDID_cases. go_unfold.
  destruct (registry resolver) as [|l]; [done|].
  destruct (s !! l) as [r|] eqn:Hl; [|done].
  destruct (mu r) eqn:Hm; [|done].
  rewrite !lookup_insert_eq. simpl.
  destruct (map_index (records r) did) as [doc found] eqn:Hi.
  rewrite !lookup_insert_eq. simpl. rewrite !insert_insert_eq.
  f_equal. by apply relock_id.
Qed.

(** A registry at rest: nobody is inside one of its methods. *)
Lemma RegisterDID_at_rest (s : store) l m doc :
  s !! l = Some (registry_with m) ->
  RegisterDID (addr_of l) doc s
  = Returned None (<[l := registry_with (<[doc_ID doc := doc]> m)]> s).
Proof.
  intros Hl. rewrite RegisterDID_eq. unfold RegisterDID_cases.
  by rewrite Hl.
Qed.

Lemma ResolveDID_at_rest (s : store) resolver l r did :
  registry resolver = addr_of l -> s !! l = Some r -> mu r = Unlocked ->
  ResolveDID resolver did s
  = Returned (addr_of (map_index (records r) did).1,
              (map_index (records r) did).2) s.
Proof.
  intros Hp Hl Hm. rewrite ResolveDID_eq. unfold ResolveDID_cases.
  by rewrite Hp, Hl, Hm.
Qed.

Lemma map_index_stored recs did :
  map_index recs did
  = match stored recs did with
    | Some doc => (doc, true)
    | None => (zero_DIDDocument, false)
    end.
Proof. by destruct recs. Qed.

Lemma register_all_at_rest docs : forall (s : store) l m,
  s !! l = Some (registry_with m) ->
  register_all (addr_of l) docs s
  = Returned tt (<[l := registry_with (insert_all docs m)]> s).
Proof.
  induction docs as [|doc rest IH]; intros s l m Hl; simpl.
  - unfold ret. f_equal. symmetry. by apply insert_id.
  - unfold bind. rewrite (RegisterDID_at_rest _ _ _ _ Hl).
    rewrite (IH _ l (<[doc_ID doc := doc]> m)) by apply lookup_insert_eq.
    by rewrite insert_insert_eq.
Qed.

Lemma insert_all_other docs : forall (m : gmap string DIDDocument) did,
  did ∉ doc_ID <$> docs -> insert_all docs m !! did = m !! did.
Proof.
  induction docs as [|doc rest IH]; intros m did Hnot; [done|].
  rewrite fmap_cons, not_elem_of_cons in Hnot. destruct Hnot as [Hne Hrest].
  unfold insert_all. simpl. fold (insert_all rest (<[doc_ID doc := doc]> m)).
  rewrite IH by done. by rewrite lookup_insert_ne.
Qed.

(** ** The sequential contract of the registry and the resolver *)

(** C1 (round trip), on a registry whose map has been made.  On a registry
    that holds any map [m] and is at rest, registering [d] through the
    registry and then resolving [doc_ID d] through a resolver bound to the
    same registry returns [true] and a pointer to a document equal to [d].
    Whatever the store, the two calls return nothing else.  (On the zero
    value of the registry they do not return: the assignment panics.) *)
Theorem round_trip (s : store) l m resolver d :
  (forall registry' resolver' (s' : store),
     registry resolver' = registry' ->
     match (RegisterDID registry' d ;; ResolveDID resolver' (doc_ID d)) s' with
     | Returned v _ => v = (addr_of d, true)
     | _ => True
     end)
  /\ (s !! l = Some (registry_with m) ->
      registry resolver = addr_of l ->
      (RegisterDID (addr_of l) d ;; ResolveDID resolver (doc_ID d)) s
      = Returned (addr_of d, true) (<[l := registry_with (<[doc_ID d := d]> m)]> s)).
Proof.
  split.
  - intros p res' s' Hres. unfold bind. rewrite RegisterDID_eq.
    unfold RegisterDID_cases.
    destruct p as [|l0]; [done|].
    destruct (s' !! l0) as [r|]; [|done].
    destruct (mu r); [|done].
    destruct (records r) as [m0|]; [|done].
    rewrite (ResolveDID_at_rest _ res' l0 _ _ Hres (lookup_insert_eq _ _ _)) by done.
    simpl. by rewrite lookup_insert_eq.
  - intros Hl Hres. unfold bind. rewrite (RegisterDID_at_rest _ _ _ _ Hl).
    rewrite (ResolveDID_at_rest _ resolver l _ _ Hres (lookup_insert_eq _ _ _)) by done.
    simpl. by rewrite lookup_insert_eq.
Qed.

(** C2 (resolve is a map lookup; not found).  On a registry at rest,
    [ResolveDID did] returns the document stored under [did] with [true]
    when the map has that key, and [false] otherwise.  In particular it
    returns [false] for [did] after any calls of [RegisterDID] on a newly
    made registry, none of which had [did] as its identifier (no call at
    all included). *)
Theorem resolve_is_lookup (s : store) l r resolver did docs :
  s !! l = Some r -> mu r = Unlocked ->
  registry resolver = addr_of l ->
  ResolveDID resolver did s
  = Returned (match stored (records r) did with
              | Some doc => (addr_of doc, true)
              | None => (addr_of zero_DIDDocument, false)
              end) s
  /\ (records r = make_records -> did ∉ doc_ID <$> docs ->
      exists s', (register_all (addr_of l) docs ;; ResolveDID resolver did) s
                 = Returned (addr_of zero_DIDDocument, false) s').
Proof.
  intros Hl Hm Hres. split.
  - rewrite (ResolveDID_at_rest _ _ _ _ _ Hres Hl Hm).
    rewrite map_index_stored. by destruct (stored (records r) did).
  - intros Hr Hnot. eexists. unfold bind.
    assert (s !! l = Some (registry_with ∅)) as Hl'.
    { rewrite Hl. destruct r as [u recs]. simpl in *. by subst. }
    rewrite (register_all_at_rest _ _ _ _ Hl').
    rewrite (ResolveDID_at_rest _ resolver l _ _ Hres (lookup_insert_eq _ _ _)) by done.
    simpl. by rewrite insert_all_other, lookup_empty.
Qed.

(** C3 (last write wins).  Registering [d1] and then [d2], which has the
    same identifier, and then resolving that identifier returns [d2]; the
    registry is left as by registering [d2] alone, with nothing of [d1].
    Whatever the store, the three calls return nothing else. *)
Theorem last_write_wins (s : store) l m resolver d1 d2 :
  doc_ID d1 = doc_ID d2 ->
  (forall registry' resolver' (s' : store),
     registry resolver' = registry' ->
     match (RegisterDID registry' d1 ;; RegisterDID registry' d2 ;;
            ResolveDID resolver' (doc_ID d1)) s' with
     | Returned v _ => v = (addr_of d2, true)
     | _ => True
     end)
  /\ (s !! l = Some (registry_with m) ->
      registry resolver = addr_of l ->
      (RegisterDID (addr_of l) d1 ;; RegisterDID (addr_of l) d2 ;;
       ResolveDID resolver (doc_ID d1)) s
      = Returned (addr_of d2, true) (<[l := registry_with (<[doc_ID d2 := d2]> m)]> s)).
Proof.
  intros Hid. split.
  - intros p res' s' Hres. unfold bind. rewrite RegisterDID_eq.
    unfold RegisterDID_cases.
    destruct p as [|l0]; [done|].
    destruct (s' !! l0) as [r|]; [|done].
    destruct (mu r); [|done].
    destruct (records r) as [m0|]; [|done].
    rewrite (RegisterDID_at_rest _ l0 (<[doc_ID d1 := d1]> m0)) by apply lookup_insert_eq.
    rewrite (ResolveDID_at_rest _ res' l0 _ _ Hres (lookup_insert_eq _ _ _)) by done.
    simpl. by rewrite Hid, lookup_insert_eq.
  - intros Hl Hres. unfold bind. rewrite (RegisterDID_at_rest _ _ _ _ Hl).
    rewrite (RegisterDID_at_rest _ l (<[doc_ID d1 := d1]> m)) by apply lookup_insert_eq.
    rewrite insert_insert_eq, Hid, insert_insert_eq.
    rewrite (ResolveDID_at_rest _ resolver l _ _ Hres (lookup_insert_eq _ _ _)) by done.
    simpl. by rewrite lookup_insert_eq.
Qed.

(** C4 (other keys are untouched).  When [idB] is not the identifier of
    [d], a call of [RegisterDID d] changes nothing of what [ResolveDID idB]
    returns, through any resolver and whatever the store was.  On a
    registry at rest that holds [m], [ResolveDID idB] returns the same
    after [RegisterDID d] as before it, and the map keeps every entry
    whose key is not [doc_ID d]. *)
Theorem register_frame (s : store) l m resolver d idB :
  idB <> doc_ID d ->
  (forall registry' resolver' (s' : store),
     match RegisterDID registry' d s' with
     | Returned _ s1 | Panicked _ s1 =>
         value_of (ResolveDID resolver' idB s1) = value_of (ResolveDID resolver' idB s')
     | Blocked => True
     end)
  /\ (s !! l = Some (registry_with m) ->
      registry resolver = addr_of l ->
      exists v m',
        ResolveDID resolver idB s = Returned v s
        /\ (RegisterDID (addr_of l) d ;; ResolveDID resolver idB) s
           = Returned v (<[l := registry_with m']> s)
        /\ forall k, k <> doc_ID d -> m' !! k = m !! k).
Proof.
  intros Hne. split.
  - intros p res' s'. rewrite RegisterDID_eq. unfold RegisterDID_cases.
    destruct p as [|l0]; [done|].
    destruct (s' !! l0) as [r|] eqn:Hl0; [|done].
    destruct (mu r) eqn:Hmu; [|done].
    destruct (records r) as [m0|] eqn:Hrec; [|done].
    rewrite !ResolveDID_eq. unfold ResolveDID_cases.
    destruct (registry res') as [|l1]; [done|].
    destruct (decide (l0 = l1)) as [<-|Hl01].
    + rewrite lookup_insert_eq, Hl0, Hmu, Hrec. simpl.
      by rewrite lookup_insert_ne.
    + rewrite lookup_insert_ne by done.
      destruct (s' !! l1) as [r1|]; [|done]. by destruct (mu r1).
  - intros Hl Hres. eexists _, (<[doc_ID d := d]> m). split; [|split].
    + by apply (ResolveDID_at_rest _ resolver l _ _ Hres Hl).
    + unfold bind. rewrite (RegisterDID_at_rest _ _ _ _ Hl).
      rewrite (ResolveDID_at_rest _ resolver l _ _ Hres (lookup_insert_eq _ _ _)) by done.
      simpl. by rewrite lookup_insert_ne.
    + intros k Hk. by rewrite lookup_insert_ne.
Qed.

(** C5 (registration cannot fail), on a registry whose map has been made.
    [RegisterDID] has no error result: whatever the store, the pointer and
    the document, an error it returns is nil.  And on a registry that
    holds any map [m] and is at rest it does return, with the nil error,
    for every document: no document is rejected.  (On the zero value of
    the registry it does not return: the assignment panics.) *)
Theorem register_cannot_fail (s : store) l m d :
  (forall registry' d' (s' : store),
     match RegisterDID registry' d' s' with
     | Returned e _ => e = None
     | _ => True
     end)
  /\ (s !! l = Some (registry_with m) ->
      RegisterDID (addr_of l) d s
      = Returned None (<[l := registry_with (<[doc_ID d := d]> m)]> s)).
Proof.
  split.
  - intros p d' s'. rewrite RegisterDID_eq. unfold RegisterDID_cases.
    destruct p as [|l']; [done|].
    destruct (s' !! l') as [r|]; [|done].
    by destruct (mu r), (records r).
  - apply RegisterDID_at_rest.
Qed.

(** C6 (resolve is read-only).  [ResolveDID] on a registry at rest returns
    with the store it was called in: the records map, the mutex and every
    other registry are as before.  Whatever the store, the store it leaves
    when it returns or panics is the one it was called in. *)
Theorem resolve_read_only (s : store) l r resolver did :
  (forall resolver' did' (s' : store),
     match ResolveDID resolver' did' s' with
     | Returned _ s'' | Panicked _ s'' => s'' = s'
     | Blocked => True
     end)
  /\ (s !! l = Some r -> mu r = Unlocked -> registry resolver = addr_of l ->
      exists v, ResolveDID resolver did s = Returned v s).
Proof.
  split.
  - intros res' did' s'. rewrite ResolveDID_eq. unfold ResolveDID_cases.
    destruct (registry res') as [|l']; [done|].
    destruct (s' !! l') as [r'|]; [|done].
    by destruct (mu r').
  - intros Hl Hm Hres. eexists. by apply (ResolveDID_at_rest _ resolver l).
Qed.

(** C8 (not found still yields a document).  When [did] is not a key of
    the registry's map, [ResolveDID did] returns [false] together with a
    pointer that is not nil and points to the zero value of [DIDDocument],
    all of whose fields are empty. *)
Theorem not_found_zero_document (s : store) l r resolver did :
  s !! l = Some r -> mu r = Unlocked ->
  registry resolver = addr_of l ->
  stored (records r) did = None ->
  exists p,
    ResolveDID resolver did s = Returned (p, false) s
    /\ p <> nil_ptr
    /\ p = addr_of zero_DIDDocument
    /\ zero_DIDDocument = {| doc_Context := ""; doc_ID := ""; doc_Controller := "";
                             doc_VerificationMethods := None;
                             doc_VerificationRelations := None;
                             doc_ServiceEndPoints := None |}.
Proof.
  intros Hl Hm Hres Hnone. exists (addr_of zero_DIDDocument).
  split; [|done].
  rewrite (ResolveDID_at_rest _ _ _ _ _ Hres Hl Hm).
  by rewrite map_index_stored, Hnone.
Qed.

(** C9 (the map must have been made).  On a registry at rest whose records
    map has been made, whatever it holds, [RegisterDID] returns and does
    not panic.  On the zero value of [VerifiableDataRegistry], whose
    records map is nil, the assignment in [RegisterDID] panics; the mutex
    is released by the deferred [Unlock]. *)
Theorem register_needs_made_map (s : store) l r m d :
  s !! l = Some r -> mu r = Unlocked ->
  (records r = Some m -> exists s', RegisterDID (addr_of l) d s = Returned None s')
  /\ (r = zero_VerifiableDataRegistry ->
      RegisterDID (addr_of l) d s = Panicked "assignment to entry in nil map" s).
Proof.
  intros Hl Hm. split.
  - intros Hr. eexists. apply RegisterDID_at_rest. rewrite Hl.
    destruct r as [u recs]. simpl in *. by subst.
  - intros ->. rewrite RegisterDID_eq. unfold RegisterDID_cases. by rewrite Hl.
Qed.

(** C10 (registration is idempotent).  Calling [RegisterDID d] twice in
    succession has the outcome of calling it once: the same result and the
    same store, whatever the store was. *)
Theorem register_idempotent registry (s : store) d :
  (RegisterDID registry d ;; RegisterDID registry d) s = RegisterDID registry d s.
Proof.
  unfold bind. rewrite (RegisterDID_eq registry d s). unfold RegisterDID_cases.
  destruct registry as [|l]; [done|].
  destruct (s !! l) as [r|] eqn:Hl; [|done].
  destruct (mu r); [|done].
  destruct (records r) as [m|]; [|done].
  rewrite (RegisterDID_at_rest _ l (<[doc_ID d := d]> m)) by apply lookup_insert_eq.
  by rewrite !insert_insert_eq.
Qed.

(** ** Lists of documents *)

Lemma insert_all_elem docs : forall (m : gmap string DIDDocument) d,
  NoDup (doc_ID <$> docs) -> d ∈ docs -> insert_all docs m !! doc_ID d = Some d.
Proof.
  induction docs as [|d0 rest IH]; intros m d Hnd Hin; [by apply elem_of_nil in Hin|].
  rewrite fmap_cons in Hnd. apply NoDup_cons in Hnd as [Hfresh Hnd].
  unfold insert_all. simpl. fold (insert_all rest (<[doc_ID d0 := d0]> m)).
  apply elem_of_cons in Hin as [->|Hin].
  - rewrite insert_all_other by done. apply lookup_insert_eq.
  - by apply IH.
Qed.

Lemma sum_list_0 {A} (f : A -> nat) (xs : list A) x :
  sum_list (f <$> xs) = 0 -> x ∈ xs -> f x = 0.
Proof.
  induction xs as [|y ys IH]; intros H0 Hin; [by apply elem_of_nil in Hin|].
  rewrite fmap_cons in H0. change (f y + sum_list (f <$> ys) = 0) in H0.
  apply elem_of_cons in Hin as [->|Hin]; [lia|]. apply IH; [lia|done].
Qed.

Lemma sample_ids_distinct : NoDup (doc_ID <$> [alice; bob]).
Proof. apply (bool_decide_unpack _). vm_compute. reflexivity. Qed.

(** ** The claims at the sample data *)

Lemma round_trip_witness :
  sample_store !! 1%positive = Some (registry_with ∅)
  /\ (RegisterDID (addr_of 1%positive) alice ;;
      ResolveDID sample_resolver (doc_ID alice)) sample_store
     = Returned (addr_of alice, true)
         (<[1%positive := registry_with (<[doc_ID alice := alice]> ∅)]> sample_store).
Proof.
  split; [reflexivity|].
  exact (proj2 (round_trip sample_store 1 ∅ sample_resolver alice) eq_refl eq_refl).
Defined.

Lemma sample_bob_not_registered : "did:example:bob" ∉ doc_ID <$> [alice; alice2].
Proof. apply (bool_decide_unpack _). vm_compute. reflexivity. Qed.

Lemma resolve_is_lookup_witness :
  ResolveDID sample_resolver "did:example:bob" sample_store
  = Returned (addr_of zero_DIDDocument, false) sample_store
  /\ exists s',
       (register_all (addr_of 1%positive) [alice; alice2] ;;
        ResolveDID sample_resolver "did:example:bob") sample_store
       = Returned (addr_of zero_DIDDocument, false) s'.
Proof.
  destruct (resolve_is_lookup sample_store 1 (registry_with ∅) sample_resolver
              "did:example:bob" [alice; alice2] eq_refl eq_refl eq_refl)
    as [Hlookup Hnever].
  split; [exact Hlookup|].
  exact (Hnever eq_refl sample_bob_not_registered).
Defined.

Lemma last_write_wins_witness :
  doc_ID alice = doc_ID alice2
  /\ (RegisterDID (addr_of 1%positive) alice ;;
      RegisterDID (addr_of 1%positive) alice2 ;;
      ResolveDID sample_resolver (doc_ID alice)) sample_store
     = Returned (addr_of alice2, true)
         (<[1%positive := registry_with (<[doc_ID alice2 := alice2]> ∅)]> sample_store).
Proof.
  split; [reflexivity|].
  exact (proj2 (last_write_wins sample_store 1 ∅ sample_resolver alice alice2 eq_refl)
           eq_refl eq_refl).
Defined.

Lemma register_frame_witness :
  "did:example:bob" <> doc_ID alice
  /\ exists v m',
       ResolveDID sample_resolver "did:example:bob" sample_store = Returned v sample_store
       /\ (RegisterDID (addr_of 1%positive) alice ;;
           ResolveDID sample_resolver "did:example:bob") sample_store
          = Returned v (<[1%positive := registry_with m']> sample_store)
       /\ forall k, k <> doc_ID alice -> m' !! k = (∅ : gmap string DIDDocument) !! k.
Proof.
  assert ("did:example:bob" <> doc_ID alice) as Hne by (vm_compute; discriminate).
  split; [exact Hne|].
  exact (proj2 (register_frame sample_store 1 ∅ sample_resolver alice "did:example:bob"
                  Hne) eq_refl eq_refl).
Defined.

Lemma register_cannot_fail_witness :
  RegisterDID (addr_of 1%positive) alice sample_store
  = Returned None
      (<[1%positive := registry_with (<[doc_ID alice := alice]> ∅)]> sample_store).
Proof.
  exact (proj2 (register_cannot_fail sample_store 1 ∅ alice) eq_refl).
Defined.

Lemma resolve_read_only_witness :
  exists v, ResolveDID sample_resolver "did:example:alice" sample_store
            = Returned v sample_store.
Proof.
  exact (proj2 (resolve_read_only sample_store 1 (registry_with ∅) sample_resolver
                  "did:example:alice") eq_refl eq_refl eq_refl).
Defined.

Lemma not_found_zero_document_witness :
  exists p,
    ResolveDID sample_resolver "did:example:alice" sample_store
    = Returned (p, false) sample_store
    /\ p <> nil_ptr
    /\ p = addr_of zero_DIDDocument
    /\ zero_DIDDocument = {| doc_Context := ""; doc_ID := ""; doc_Controller := "";
                             doc_VerificationMethods := None;
                             doc_VerificationRelations := None;
                             doc_ServiceEndPoints := None |}.
Proof.
  exact (not_found_zero_document sample_store 1 (registry_with ∅) sample_resolver
           "did:example:alice" eq_refl eq_refl eq_refl eq_refl).
Defined.

Lemma register_needs_made_map_witness :
  (exists s', RegisterDID (addr_of 1%positive) alice sample_store = Returned None s')
  /\ RegisterDID (addr_of 2%positive) alice sample_store
     = Panicked "assignment to entry in nil map" sample_store.
Proof.
  split.
  - exact (proj1 (register_needs_made_map sample_store 1 (registry_with ∅) ∅ alice
                    eq_refl eq_refl) eq_refl).
  - exact (proj2 (register_needs_made_map sample_store 2 zero_VerifiableDataRegistry ∅
                    alice eq_refl eq_refl) eq_refl).
Defined.

(** C1, as it is worded, fails on the zero value of the registry (location 2
    of the sample store): the map is nil, [RegisterDID] panics on its
    assignment, and the two calls return nothing. *)
Lemma round_trip_zero_value_counterexample :
  sample_store !! 2%positive = Some zero_VerifiableDataRegistry
  /\ (RegisterDID (addr_of 2%positive) alice ;;
      ResolveDID {| registry := addr_of 2%positive |} (doc_ID alice)) sample_store
     = Panicked "assignment to entry in nil map" sample_store
  /\ ~ exists s',
         (RegisterDID (addr_of 2%positive) alice ;;
          ResolveDID {| registry := addr_of 2%positive |} (doc_ID alice)) sample_store
         = Returned (addr_of alice, true) s'.
Proof.
  assert ((RegisterDID (addr_of 2%positive) alice ;;
           ResolveDID {| registry := addr_of 2%positive |} (doc_ID alice)) sample_store
          = Panicked "assignment to entry in nil map" sample_store) as Hpanic.
  { unfold bind. rewrite RegisterDID_eq. reflexivity. }
  split; [reflexivity|]. split; [exact Hpanic|].
  intros [s' Hs']. rewrite Hpanic in Hs'. discriminate.
Qed.

(** C5, as it is worded, fails on the zero value of the registry: the call
    does not return nil there, it panics on the assignment to the nil map. *)
Lemma register_zero_value_counterexample :
  sample_store !! 2%positive = Some zero_VerifiableDataRegistry
  /\ RegisterDID (addr_of 2%positive) alice sample_store
     = Panicked "assignment to entry in nil map" sample_store
  /\ ~ exists e s', RegisterDID (addr_of 2%positive) alice sample_store = Returned e s'.
Proof.
  assert (RegisterDID (addr_of 2%positive) alice sample_store
          = Panicked "assignment to entry in nil map" sample_store) as Hpanic.
  { rewrite RegisterDID_eq. reflexivity. }
  split; [reflexivity|]. split; [exact Hpanic|].
  intros (e & s' & Hs'). rewrite Hpanic in Hs'. discriminate.
Qed.

(** The scenario of [main]: when the key pair was generated, the document
    is registered, found again, and printed. *)
Lemma main_resolves publicKeyBytes (s : gmap positive VerifiableDataRegistry) :
  exists s',
    main (inl publicKeyBytes) s
    = Returned (Resolved_DID_Document (addr_of (main_doc publicKeyBytes))) s'.
Proof.
  eexists. unfold main, alloc, bind.
  rewrite (RegisterDID_at_rest _ (fresh (dom s)) ∅) by apply lookup_insert_eq.
  rewrite (ResolveDID_at_rest _ {| registry := addr_of (fresh (dom s)) |}
             (fresh (dom s)) _ _ eq_refl (lookup_insert_eq _ _ _)) by done.
  simpl. rewrite lookup_insert_eq. reflexivity.
Qed.

(** * Sequences of calls *)

Lemma perform_at_rest (s : store) l m c :
  s !! l = Some (registry_with m) ->
  perform (addr_of l) c s
  = Returned (result_on c m) (<[l := registry_with (map_after [c] m)]> s).
Proof.
  intros Hl. destruct c as [doc|did]; unfold perform, bind; simpl.
  - by rewrite (RegisterDID_at_rest _ _ _ _ Hl).
  - rewrite (ResolveDID_at_rest _ {| registry := addr_of l |} l _ _ eq_refl Hl) by done.
    simpl.
    unfold ret. rewrite (insert_id _ _ _ Hl).
    by destruct (m !! did).
Qed.

Lemma map_after_cons c cs m : map_after (c :: cs) m = map_after cs (map_after [c] m).
Proof. done. Qed.

Lemma map_after_lookup cs : forall (m : gmap string DIDDocument) did,
  map_after cs m !! did
  = match last_registered did cs with
    | Some doc => Some doc
    | None => m !! did
    end.
Proof.
  induction cs as [|c rest IH]; intros m did; [done|].
  rewrite map_after_cons, IH. simpl.
  destruct (last_registered did rest); [done|].
  destruct c as [doc|did']; simpl; [|done].
  destruct (decide (doc_ID doc = did)) as [<-|Hne].
  - by rewrite lookup_insert_eq.
  - by rewrite lookup_insert_ne.
Qed.

Lemma last_registered_app did cs1 cs2 :
  last_registered did (cs1 ++ cs2)
  = match last_registered did cs2 with
    | Some doc => Some doc
    | None => last_registered did cs1
    end.
Proof.
  induction cs1 as [|c rest IH]; simpl.
  - by destruct (last_registered did cs2).
  - rewrite IH. by destruct (last_registered did cs2).
Qed.

Lemma map_after_app cs1 cs2 m : map_after (cs1 ++ cs2) m = map_after cs2 (map_after cs1 m).
Proof. apply foldl_app. Qed.

Lemma perform_all_at_rest cs : forall (s : store) l m,
  s !! l = Some (registry_with m) ->
  perform_all (addr_of l) cs s
  = Returned (results_of cs m) (<[l := registry_with (map_after cs m)]> s).
Proof.
  induction cs as [|c rest IH]; intros s l m Hl; simpl.
  - unfold ret. f_equal. symmetry. by apply insert_id.
  - unfold bind at 1. rewrite (perform_at_rest _ _ _ _ Hl).
    unfold bind. rewrite (IH _ l (map_after [c] m)) by apply lookup_insert_eq.
    unfold ret. by rewrite insert_insert_eq.
Qed.

Lemma results_of_length cs : forall m, length (results_of cs m) = length cs.
Proof. induction cs as [|c rest IH]; intros m; simpl; [done|]. by rewrite IH. Qed.

Lemma results_of_lookup cs : forall m k,
  results_of cs m !! k
  = match cs !! k with
    | Some (Register _) => Some (Registered None)
    | Some (Resolve did) => Some (resolved_entry (map_after (take k cs) m !! did))
    | None => None
    end.
Proof.
  induction cs as [|c rest IH]; intros m k; [done|].
  destruct k as [|k]; simpl.
  - by destruct c.
  - rewrite IH. destruct (rest !! k) as [[doc|did]|]; try done.
Qed.


Lemma last_registered_Some did cs doc :
  last_registered did cs = Some doc -> doc_ID doc = did /\ Register doc ∈ cs.
Proof.
  induction cs as [|c rest IH]; simpl; [done|].
  destruct (last_registered did rest) as [doc'|].
  - intros [= ->]. destruct (IH eq_refl) as [? ?]. split; [done|]. by apply elem_of_cons; right.
  - destruct c as [doc'|did']; [|done].
    destruct (decide (doc_ID doc' = did)); [|done].
    intros [= ->]. split; [done|]. apply elem_of_cons; by left.
Qed.

Lemma keyed_empty : keyed ∅.
Proof. intros did doc H. by rewrite lookup_empty in H. Qed.

Lemma keyed_map_after cs : forall m, keyed m -> keyed (map_after cs m).
Proof.
  induction cs as [|c rest IH]; intros m Hm; [done|].
  rewrite map_after_cons. apply IH. destruct c as [doc|did]; simpl; [|done].
  intros did doc'. destruct (decide (doc_ID doc = did)) as [<-|Hne].
  - rewrite lookup_insert_eq. by intros [= <-].
  - rewrite lookup_insert_ne by done. apply Hm.
Qed.

Lemma resolved_entry_found entry p :
  resolved_entry entry = Resolved p true -> exists doc, entry = Some doc /\ p = addr_of doc.
Proof. destruct entry as [doc|]; simpl; intros [= <-]. by exists doc. Qed.

(** X8 (a resolved document was registered under that identifier).  A
    map in which every document sits under its own identifier stays so
    through any list of calls; the newly made map is one.  On such a
    registry a [ResolveDID did] that returns [true] returns a document
    whose identifier is [did], and which the map held at the start or a
    [RegisterDID] before it has put there. *)
Theorem resolved_was_registered (s : store) l m cs :
  s !! l = Some (registry_with m) ->
  keyed m ->
  exists rs m',
    perform_all (addr_of l) cs s = Returned rs (<[l := registry_with m']> s)
    /\ keyed m'
    /\ forall k did p,
         cs !! k = Some (Resolve did) ->
         rs !! k = Some (Resolved p true) ->
         exists doc, p = addr_of doc /\ doc_ID doc = did
                     /\ (m !! did = Some doc \/ Register doc ∈ take k cs).
Proof.
  intros Hl Hm. exists (results_of cs m), (map_after cs m).
  split; [by apply perform_all_at_rest|]. split; [by apply keyed_map_after|].
  intros k did p Hk Hr. rewrite results_of_lookup, Hk, map_after_lookup in Hr.
  injection Hr as Hr. apply resolved_entry_found in Hr as (doc & Hdoc & ->).
  exists doc. split; [done|].
  destruct (last_registered did (take k cs)) as [doc'|] eqn:Hlast.
  - injection Hdoc as ->. apply last_registered_Some in Hlast as [? ?]. auto.
  - split; [by apply Hm|by left].
Qed.

(** X9 (what is registered stays registered).  No call removes an entry:
    an identifier the map holds is still found by [ResolveDID] after any
    list of calls. *)
Theorem registered_stays_registered (s : store) l m cs did :
  s !! l = Some (registry_with m) ->
  is_Some (m !! did) ->
  exists doc s',
    (perform_all (addr_of l) cs ;; ResolveDID {| registry := addr_of l |} did) s
    = Returned (addr_of doc, true) s'.
Proof.
  intros Hl [doc0 Hdid]. unfold bind. rewrite (perform_all_at_rest _ _ _ _ Hl).
  rewrite (ResolveDID_at_rest _ {| registry := addr_of l |} l _ _ eq_refl
             (lookup_insert_eq _ _ _)) by done.
  simpl. rewrite map_after_lookup, Hdid.
  destruct (last_registered did cs) as [doc|]; eauto.
Qed.

(** X6 (one registration, one key).  [RegisterDID d] adds the key
    [doc_ID d] to the keys of the map and no other: the map has one entry
    more when the key is new, and as many as before when it replaces. *)
Theorem register_one_key (s : store) l m d :
  s !! l = Some (registry_with m) ->
  exists m',
    RegisterDID (addr_of l) d s = Returned None (<[l := registry_with m']> s)
    /\ dom m' = {[doc_ID d]} ∪ dom m
    /\ size m' = match m !! doc_ID d with
                 | Some _ => size m
                 | None => S (size m)
                 end.
Proof.
  intros Hl. exists (<[doc_ID d := d]> m).
  split; [by apply RegisterDID_at_rest|]. split; [apply dom_insert_L|].
  destruct (m !! doc_ID d) as [d0|] eqn:Hd.
  - by apply map_size_insert_Some.
  - by apply map_size_insert_None.
Qed.

(** X5 (registrations under different identifiers commute).  Two calls
    of [RegisterDID] with different identifiers have the same outcome in
    either order, whatever the store. *)
Theorem register_commute registry (s : store) d1 d2 :
  doc_ID d1 <> doc_ID d2 ->
  (RegisterDID registry d1 ;; RegisterDID registry d2) s
  = (RegisterDID registry d2 ;; RegisterDID registry d1) s.
Proof.
  intros Hne. unfold bind.
  rewrite (RegisterDID_eq registry d1 s), (RegisterDID_eq registry d2 s).
  unfold RegisterDID_cases.
  destruct registry as [|l]; [done|].
  destruct (s !! l) as [r|] eqn:Hl; [|done].
  destruct (mu r); [|done].
  destruct (records r) as [m|]; [|done].
  rewrite (RegisterDID_at_rest _ l (<[doc_ID d1 := d1]> m)) by apply lookup_insert_eq.
  rewrite (RegisterDID_at_rest _ l (<[doc_ID d2 := d2]> m)) by apply lookup_insert_eq.
  rewrite !insert_insert_eq. do 3 f_equal. by apply insert_insert_ne.
Qed.

(** X4 (a registration touches one map only).  When [RegisterDID]
    returns or panics, the store has the registries it had, every mutex is
    as it was (the one the call took is released, on both ways out), and
    every registry other than the receiver is unchanged. *)
Theorem register_touches_records_only registry (s : store) d :
  match RegisterDID registry d s with
  | Returned _ s' | Panicked _ s' =>
      dom s' = dom s
      /\ (forall l, mu <$> s' !! l = mu <$> s !! l)
      /\ (forall l, registry <> addr_of l -> s' !! l = s !! l)
  | Blocked => True
  end.
Proof.
  rewrite RegisterDID_eq. unfold RegisterDID_cases.
  destruct registry as [|l0]; [done|].
  destruct (s !! l0) as [r|] eqn:Hl; [|done].
  destruct (mu r) eqn:Hmu; [|done].
  destruct (records r) as [m|]; [|done].
  split; [|split].
  - rewrite dom_insert_L. apply elem_of_dom_2 in Hl.
    apply subseteq_union_1_L. by apply singleton_subseteq_l.
  - intros l. destruct (decide (l0 = l)) as [<-|Hne].
    + rewrite lookup_insert_eq, Hl. simpl. by rewrite Hmu.
    + by rewrite lookup_insert_ne.
  - intros l Hne. rewrite lookup_insert_ne; [done|]. by intros <-.
Qed.

(** * Concurrent callers of both methods *)

Ltac step_unfold H :=
  unfold step_thread, step_goroutine, step_resolving, Lock, Unlock, map_assign,
    map_read, deref, bind, ret, panic in H;
  simpl in H; rewrite ?lookup_insert_eq in H; simpl in H.

(** The three kinds of move of a thread on a registry whose map is made. *)
Lemma step_thread_kinds (s : store) l call t mx mc t' s' :
  runs (addr_of l) call t ->
  thread_phase t <> Astray ->
  (thread_phase t = Inside -> mx = Locked) ->
  step_thread t (<[l := {| mu := mx; records := Some mc |}]> s) = Some (t', s') ->
  runs (addr_of l) call t'
  /\ thread_remaining t = S (thread_remaining t')
  /\ ((thread_phase t = Waiting /\ thread_phase t' = Inside /\ mx = Unlocked
       /\ s' = <[l := {| mu := Locked; records := Some mc |}]> s
       /\ forall md, mc = md -> inside_view t' md mc)
      \/ (thread_phase t = Inside /\ thread_phase t' = Inside
          /\ exists mc', s' = <[l := {| mu := Locked; records := Some mc' |}]> s
                         /\ forall md, inside_view t md mc -> inside_view t' md mc')
      \/ (thread_phase t = Inside /\ thread_phase t' = Done
          /\ s' = <[l := {| mu := Unlocked; records := Some mc |}]> s
          /\ forall md, inside_view t md mc ->
               mc = map_after [call] md /\ thread_result t' = Some (result_on call md))).
Proof.
  intros Hruns Hok Hin Hstep.
  destruct t as [[greg gdoc gpc]|[[rreg] rdid rrpc]], call as [doc|did];
    simpl in Hruns; try done; destruct Hruns as [Hreg Hcall]; simplify_eq/=.
  - destruct gpc as [| | | | msg | [e|] | msg]; simpl in *; try done.
    + (* line48 *)
      step_unfold Hstep. destruct mx; simplify_eq/=.
      rewrite insert_insert_eq. split_and!; try done. left. by split_and!.
    + (* line49 *)
      rewrite (Hin eq_refl) in *. step_unfold Hstep. simplify_eq/=.
      split_and!; try done. right; left. split_and!; try done. by exists mc.
    + (* line50 *)
      rewrite (Hin eq_refl) in *. step_unfold Hstep. simplify_eq/=.
      rewrite insert_insert_eq. split_and!; try done. right; left.
      split_and!; try done. eexists. split; [done|]. by intros md ->.
    + (* line51 *)
      rewrite (Hin eq_refl) in *. step_unfold Hstep. simplify_eq/=.
      rewrite insert_insert_eq. split_and!; try done. right; right.
      split_and!; try done.
  - destruct rrpc as [| | | doc found | msg | p found | msg]; simpl in *; try done.
    + (* line56 *)
      step_unfold Hstep. destruct mx; simplify_eq/=.
      rewrite insert_insert_eq. split_and!; try done. left. by split_and!.
    + (* line57 *)
      rewrite (Hin eq_refl) in *. step_unfold Hstep. simplify_eq/=.
      split_and!; try done. right; left. split_and!; try done. by exists mc.
    + (* line58 *)
      rewrite (Hin eq_refl) in *. step_unfold Hstep.
      destruct (mc !! did) as [doc|] eqn:Hd; simplify_eq/=.
      * split_and!; try done. right; left. split_and!; try done.
        exists mc. split; [done|]. intros md <-. by rewrite Hd.
      * split_and!; try done. right; left. split_and!; try done.
        exists mc. split; [done|]. intros md <-. by rewrite Hd.
    + (* line59 *)
      rewrite (Hin eq_refl) in *. step_unfold Hstep. simplify_eq/=.
      rewrite insert_insert_eq. split_and!; try done. right; right.
      split_and!; try done. intros md [-> Hread]. split; [done|].
      unfold resolved_entry. destruct (md !! did); by simplify_eq/=.
Qed.

Lemma sum_list_fmap_insert {A} (f : A -> nat) (xs : list A) i x x' :
  xs !! i = Some x ->
  sum_list (f <$> <[i := x']> xs) + f x = sum_list (f <$> xs) + f x'.
Proof.
  revert i. induction xs as [|x0 xs IH]; intros [|i] Hi; simplify_eq/=; [lia|].
  specialize (IH i Hi). lia.
Qed.

Lemma results_of_app xs ys : forall m,
  results_of (xs ++ ys) m = results_of xs m ++ results_of ys (map_after xs m).
Proof.
  induction xs as [|x xs IH]; intros m; [done|].
  simpl. by rewrite IH.
Qed.

Lemma pick_snoc cs hist j call :
  cs !! j = Some call -> pick cs (hist ++ [j]) = pick cs hist ++ [call].
Proof. intros Hj. unfold pick. rewrite omap_app. simpl. by rewrite Hj. Qed.

Lemma pick_length cs hist :
  (forall j, j ∈ hist -> j < length cs) -> length (pick cs hist) = length hist.
Proof.
  induction hist as [|j hist IH]; intros Hb; [done|].
  unfold pick. simpl.
  destruct (lookup_lt_is_Some_2 cs j) as [c Hc].
  { apply Hb. apply elem_of_cons. by left. }
  rewrite Hc. simpl. f_equal. apply IH. intros j' Hj'. apply Hb.
  apply elem_of_cons. by right.
Qed.

Lemma program_moves_left_go_calls registry cs (s : store) :
  program_moves_left (go_calls registry cs s) = 4 * length cs.
Proof.
  unfold program_moves_left, go_calls. simpl.
  induction cs as [|c cs IH]; [done|].
  rewrite !fmap_cons. change (sum_list (?x :: ?xs)) with (x + sum_list xs).
  rewrite IH. destruct c; simpl; lia.
Qed.



Lemma pick_seq_from (pre cs : list call) :
  omap (fun j => (pre ++ cs) !! j) (seq (length pre) (length cs)) = cs.
Proof.
  revert pre. induction cs as [|c cs IH]; intros pre; [done|].
  simpl. rewrite list_lookup_middle by done. simpl. f_equal.
  specialize (IH (pre ++ [c])). rewrite length_app in IH. simpl in IH.
  rewrite <- app_assoc in IH. simpl in IH.
  by rewrite Nat.add_1_r in IH.
Qed.

Lemma pick_seq cs : pick cs (seq 0 (length cs)) = cs.
Proof. apply (pick_seq_from [] cs). Qed.

Lemma pick_Permutation cs order :
  order ≡ₚ seq 0 (length cs) -> pick cs order ≡ₚ cs.
Proof. intros Hp. unfold pick. rewrite Hp. fold (pick cs (seq 0 (length cs))). by rewrite pick_seq. Qed.

Lemma last_registered_None did cs doc :
  last_registered did cs = None -> Register doc ∈ cs -> doc_ID doc <> did.
Proof.
  induction cs as [|c rest IH]; simpl; intros Hnone Hin; [by apply elem_of_nil in Hin|].
  destruct (last_registered did rest) as [doc'|]; [done|].
  apply elem_of_cons in Hin as [<-|Hin]; [|by apply IH].
  by destruct (decide (doc_ID doc = did)).
Qed.

Lemma done_has_result t : thread_phase t = Done -> is_Some (thread_result t).
Proof.
  destruct t as [[? ? gpc]|[? ? rrpc]]; simpl.
  - by destruct gpc as [| | | | msg | [e|] | msg].
  - by destruct rrpc.
Qed.

Lemma result_is_done t :
  is_Some (thread_result t) -> thread_phase t <> Astray -> thread_phase t = Done.
Proof.
  destruct t as [[? ? gpc]|[? ? rrpc]]; simpl.
  - destruct gpc as [| | | | msg | [e|] | msg]; try done; by intros [? ?].
  - destruct rrpc; try done; by intros [? ?].
Qed.

Lemma step_thread_enabled (s : store) l call t mx mc :
  runs (addr_of l) call t ->
  (thread_phase t = Waiting /\ mx = Unlocked) \/ (thread_phase t = Inside /\ mx = Locked) ->
  is_Some (step_thread t (<[l := {| mu := mx; records := Some mc |}]> s)).
Proof.
  intros Hruns Hphase.
  destruct t as [[greg gdoc gpc]|[[rreg] rdid rrpc]], call as [doc|did];
    simpl in Hruns; try done; destruct Hruns as [Hreg Hcall]; simplify_eq/=.
  - unfold step_thread, step_goroutine, Lock, Unlock, map_assign, deref, bind, ret, panic.
    simpl. rewrite !lookup_insert_eq. simpl.
    destruct gpc as [| | | | msg | [e|] | msg], Hphase as [[? ->]|[? ->]];
      simpl in *; try done; try by eexists.
  - unfold step_thread, step_resolving, Lock, Unlock, map_read, deref, bind, ret, panic.
    simpl. rewrite !lookup_insert_eq. simpl.
    destruct rrpc as [| | | doc found | msg | p found | msg], Hphase as [[? ->]|[? ->]];
      simpl in *; try done; try by eexists.
    destruct (mc !! did); by eexists.
Qed.

Section linearizable.
Context (s : store) (l : positive).
Context (m : gmap string DIDDocument) (cs : list call).
Hypothesis Hl : s !! l = Some (registry_with m).

Lemma linv_go_calls : linv s l m cs (go_calls (addr_of l) cs s).
Proof using Hl.
  exists [], None, m. simpl. split_and!.
  - symmetry. by apply insert_id.
  - by rewrite length_fmap.
  - constructor.
  - intros j Hj. by apply elem_of_nil in Hj.
  - intros j t Hj. rewrite list_lookup_fmap in Hj.
    destruct (cs !! j) as [c|] eqn:Hc; simplify_eq/=.
    exists c. split; [done|].
    destruct c as [doc|did]; simpl; split_and!; try done.
    all: try (split; [done|intros H; by apply elem_of_nil in H]).
  - intros k j Hk. done.
  - done.
Qed.

Lemma linv_dispatch c i c' :
  linv s l m cs c -> dispatch i c = Some c' ->
  linv s l m cs c' /\ program_moves_left c = S (program_moves_left c').
Proof using Type.
  intros (hist & owner & mc & Hmem & Hlen & Hnd & Hbound & Hthreads & Hres & Hown) Hstep.
  unfold dispatch in Hstep.
  destruct (threads c !! i) as [t|] eqn:Hi; [|done].
  destruct (step_thread t (memory c)) as [[t' s']|] eqn:Hst; [|done].
  simplify_eq/=.
  destruct (Hthreads i t Hi) as (call & Hcall & Hruns & Hok & Hinside & Hdone).
  rewrite Hmem in Hst.
  assert (thread_phase t = Inside -> mutex_of owner = Locked) as Hlocked.
  { intros Hin. apply Hinside in Hin. by subst. }
  destruct (step_thread_kinds s l call t _ mc t' s' Hruns Hok Hlocked Hst)
    as (Hruns' & Hrem & Hkind).
  split.
  2:{ unfold program_moves_left. simpl.
      pose proof (sum_list_fmap_insert thread_remaining _ _ _ t' Hi). lia. }
  assert (i < length (threads c)) as Hilt by by eapply lookup_lt_Some.
  destruct Hkind as [(Hw & Hin' & Hfree & -> & Hview)
                    |[(Hin & Hin' & mc' & -> & Hview)
                     |(Hin & Hdone' & -> & Hview)]].
  - (* the thread takes the mutex *)
    destruct owner as [o|]; [done|]. simpl in Hown.
    assert (i ∉ hist) as Hfresh.
    { intros Hh. apply Hdone in Hh. congruence. }
    exists hist, (Some i), mc. simpl. split_and!; try done.
    + by rewrite length_insert.
    + intros j tj Hj. apply list_lookup_insert_Some in Hj as [(-> & <- & _)|(Hne & Hj)].
      * exists call. split_and!; try done; try congruence.
        all: try (split; [congruence|]; intros Hh; by apply Hfresh in Hh).
      * destruct (Hthreads j tj Hj) as (cj & ? & ? & ? & Hij & ?).
        exists cj. split_and!; try done.
        split; [intros Hx; by apply Hij in Hx|]. intros [= <-]. done.
    + intros k j Hk. rewrite list_lookup_insert_ne; [by apply Hres|].
      intros <-. apply Hfresh. by eapply list_elem_of_lookup_2.
    + exists t'. split; [by apply list_lookup_insert_eq|]. by apply Hview.
  - (* the thread moves on inside *)
    assert (owner = Some i) as -> by by apply Hinside.
    assert (i ∉ hist) as Hfresh.
    { intros Hh. apply Hdone in Hh. congruence. }
    destruct Hown as (t0 & Ht0 & Hv0). rewrite Hi in Ht0. injection Ht0 as <-.
    exists hist, (Some i), mc'. simpl. split_and!; try done.
    + by rewrite length_insert.
    + intros j tj Hj. apply list_lookup_insert_Some in Hj as [(-> & <- & _)|(Hne & Hj)].
      * exists call. split_and!; try done; try congruence.
        all: try (split; [congruence|]; intros Hh; by apply Hfresh in Hh).
      * by apply Hthreads.
    + intros k j Hk. rewrite list_lookup_insert_ne; [by apply Hres|].
      intros <-. apply Hfresh. by eapply list_elem_of_lookup_2.
    + exists t'. split; [by apply list_lookup_insert_eq|]. by apply Hview.
  - (* the thread returns *)
    assert (owner = Some i) as -> by by apply Hinside.
    assert (i ∉ hist) as Hfresh.
    { intros Hh. apply Hdone in Hh. congruence. }
    destruct Hown as (t0 & Ht0 & Hv0). rewrite Hi in Ht0. injection Ht0 as <-.
    destruct (Hview _ Hv0) as [Hmc Hresult].
    assert (length (results_of (pick cs hist) m) = length hist) as Hrl.
    { by rewrite results_of_length, pick_length. }
    exists (hist ++ [i]), None, mc. simpl.
    rewrite (pick_snoc _ _ _ _ Hcall), results_of_app, map_after_app.
    split_and!; try done.
    + by rewrite length_insert.
    + apply NoDup_app. split_and!; [done| |apply NoDup_singleton].
      intros x Hx Hx'. apply list_elem_of_singleton in Hx'. by subst.
    + intros j Hj. apply elem_of_app in Hj as [Hj|Hj]; [by apply Hbound|].
      apply list_elem_of_singleton in Hj. subst. by rewrite <- Hlen.
    + intros j tj Hj. apply list_lookup_insert_Some in Hj as [(-> & <- & _)|(Hne & Hj)].
      * exists call. split_and!; try done; try congruence.
        all: try (split; [intros _|done]; apply elem_of_app; right;
                  by apply list_elem_of_singleton).
        split; [congruence|done].
      * destruct (Hthreads j tj Hj) as (cj & ? & ? & ? & Hij & Hdj).
        exists cj. split_and!; try done.
        -- split; [|done]. intros Hx. apply Hij in Hx. congruence.
        -- rewrite Hdj, elem_of_app, list_elem_of_singleton.
           split; [by left|]. intros [Hx|Hx]; [done|congruence].
    + intros k j Hk. apply lookup_snoc_Some in Hk as [[Hklt Hk]|[-> <-]].
      * rewrite lookup_app_l by lia.
        rewrite list_lookup_insert_ne; [by apply Hres|].
        intros <-. apply Hfresh. by eapply list_elem_of_lookup_2.
      * rewrite list_lookup_insert_eq by done. simpl.
        rewrite <- Hrl, list_lookup_middle by done. done.
Qed.

Lemma linv_nsteps n c0 c :
  nsteps moves n c0 c -> linv s l m cs c0 ->
  linv s l m cs c /\ program_moves_left c0 = n + program_moves_left c.
Proof using Type.
  induction 1 as [c|n c0 c1 c [i Hstep] _ IH]; intros Hinv; [done|].
  destruct (linv_dispatch _ _ _ Hinv Hstep) as [Hinv1 Hm].
  destruct (IH Hinv1) as [Hinv2 Hm2]. split; [done|lia].
Qed.

Lemma linv_progress c :
  linv s l m cs c -> all_done c \/ exists c', moves c c'.
Proof using Type.
  intros (hist & owner & mc & Hmem & Hlen & Hnd & Hbound & Hthreads & Hres & Hown).
  assert (forall j t call, threads c !! j = Some t -> runs (addr_of l) call t ->
            (thread_phase t = Waiting /\ mutex_of owner = Unlocked)
            \/ (thread_phase t = Inside /\ mutex_of owner = Locked) ->
            exists c', moves c c') as Hmove.
  { intros j t call Hj Hruns Hphase.
    destruct (step_thread_enabled s l call t _ mc Hruns Hphase) as [[t' s'] Hst].
    eexists. exists j. unfold dispatch. by rewrite Hj, Hmem, Hst. }
  destruct owner as [o|].
  - right. destruct Hown as (t & Ho & _).
    destruct (Hthreads o t Ho) as (call & _ & Hruns & _ & Hin & _).
    apply (Hmove o t call Ho Hruns). right. split; [by apply Hin|done].
  - destruct (Forall_Exists_dec (fun t => is_Some (thread_result t))
                (fun t => ~ is_Some (thread_result t))
                (fun t => decide (is_Some (thread_result t))) (threads c))
      as [Hall|Hex]; [by left|].
    right. apply Exists_exists in Hex as (t & Hin & Hnot).
    apply list_elem_of_lookup in Hin as [j Hj].
    destruct (Hthreads j t Hj) as (call & _ & Hruns & Hok & Hinside & _).
    apply (Hmove j t call Hj Hruns). left. split; [|done].
    assert (thread_phase t <> Inside) as Hni.
    { intros Hx. by apply Hinside in Hx. }
    assert (thread_phase t <> Done) as Hnd'.
    { intros Hx. destruct Hnot. by apply done_has_result. }
    by destruct (thread_phase t).
Qed.

Lemma linv_moves_left_0 c :
  linv s l m cs c -> program_moves_left c = 0 -> all_done c.
Proof using Type.
  intros (hist & owner & mc & _ & _ & _ & _ & Hthreads & _) H0.
  apply Forall_forall. intros t Hin.
  pose proof (sum_list_0 thread_remaining (threads c) t H0 Hin) as Hr.
  destruct (proj1 (list_elem_of_lookup _ _) Hin) as [j Hj].
  destruct (Hthreads j t Hj) as (_ & _ & _ & Hok & _).
  apply done_has_result.
  destruct t as [[? ? gpc]|[? ? rrpc]]; simpl in *.
  - by destruct gpc as [| | | | msg | [e|] | msg].
  - by destruct rrpc.
Qed.

End linearizable.

Lemma run_program_nsteps sched : forall c c',
  run_program sched c = Some c' -> nsteps moves (length sched) c c'.
Proof.
  induction sched as [|i rest IH]; intros c c' Hrun; simpl in *.
  - simplify_eq. constructor.
  - destruct (dispatch i c) as [c1|] eqn:Hi; [|done].
    apply nsteps_l with c1; [by exists i|by apply IH].
Qed.

(** X12 (concurrent callers of both methods finish).  Goroutines call
    [RegisterDID] and [ResolveDID] at the same time, one per call of the
    list, on one registry at rest whose map is made.  Whatever the order
    of their moves: there are at most four moves per call; as long as a
    call has not returned, some goroutine can move; after four moves per
    call every call has returned. *)
Theorem concurrent_calls_finish (s : store) l m cs n c :
  s !! l = Some (registry_with m) ->
  nsteps moves n (go_calls (addr_of l) cs s) c ->
  n <= 4 * length cs
  /\ (all_done c \/ exists c', moves c c')
  /\ (n = 4 * length cs -> all_done c).
Proof.
  intros Hl Hsteps.
  destruct (linv_nsteps s l m cs n _ c Hsteps (linv_go_calls s l m cs Hl))
    as [Hinv Hmoves].
  rewrite program_moves_left_go_calls in Hmoves.
  split; [lia|]. split; [by eapply linv_progress|].
  intros ->. apply (linv_moves_left_0 s l m cs); [done|lia].
Qed.

(** X16 (mutual exclusion).  In no state that the concurrent calls can
    reach are two goroutines between [Lock] and [Unlock]. *)
Theorem concurrent_calls_exclude
    (s : store) l m cs n c i j ti tj :
  s !! l = Some (registry_with m) ->
  nsteps moves n (go_calls (addr_of l) cs s) c ->
  threads c !! i = Some ti -> threads c !! j = Some tj ->
  thread_phase ti = Inside -> thread_phase tj = Inside ->
  i = j.
Proof.
  intros Hl Hsteps Hi Hj Hpi Hpj.
  destruct (linv_nsteps s l m cs n _ c Hsteps (linv_go_calls s l m cs Hl))
    as [(hist & owner & mc & _ & _ & _ & _ & Hthreads & _) _].
  destruct (Hthreads i ti Hi) as (_ & _ & _ & _ & Hii & _).
  destruct (Hthreads j tj Hj) as (_ & _ & _ & _ & Hjj & _).
  apply Hii in Hpi. apply Hjj in Hpj. congruence.
Qed.

Lemma sample_program_run :
  run_program sample_dispatch (go_calls (addr_of 1%positive) sample_calls sample_store)
  = Some sample_done.
Proof. vm_compute. reflexivity. Qed.

(** * Concurrent callers, with the accesses to the map that overlap *)

Ltac move_unfold H :=
  unfold caller_move, Lock, Unlock, map_assign, deref, bind, ret, panic in H;
  simpl in H; rewrite ?lookup_insert_eq in H; simpl in H.

(** The three kinds of move of a caller on a registry whose map is made. *)
Lemma caller_move_kinds (s : store) l c mx md mc mk lm :
  c_registry c = addr_of l ->
  caller_phase c <> Astray ->
  (caller_phase c = Inside -> mx = Locked /\ caller_view c l md mc mk) ->
  (caller_phase c = Waiting -> mx = Unlocked -> mc = md /\ mk = ∅) ->
  caller_move c (<[l := {| mu := mx; records := Some mc |}]> s) mk = Some lm ->
  let c' := at_stage c (l_stage lm) in
  l_down lm = None
  /\ caller_remaining c = S (caller_remaining c')
  /\ ((caller_phase c = Waiting /\ caller_phase c' = Inside /\ mx = Unlocked
       /\ l_store lm = <[l := {| mu := Locked; records := Some mc |}]> s
       /\ l_marks lm = mk
       /\ caller_view c' l md mc mk)
      \/ (caller_phase c = Inside /\ caller_phase c' = Inside
          /\ exists mc', l_store lm = <[l := {| mu := Locked; records := Some mc' |}]> s
                         /\ caller_view c' l md mc' (l_marks lm))
      \/ (caller_phase c = Inside /\ caller_phase c' = Done
          /\ l_store lm = <[l := {| mu := Unlocked; records := Some mc |}]> s
          /\ l_marks lm = ∅ /\ mk = ∅
          /\ mc = map_after [c_call c] md
          /\ caller_result c' = Some (result_on (c_call c) md))).
Proof.
  intros Hreg Hok Hin Hwait Hmove.
  destruct c as [creg ccall cst]. simpl in Hreg. subst creg.
  unfold caller_phase, caller_view, caller_remaining, caller_result in *. simpl in *.
  destruct cst as [| | | | r | msg | r | msg]; try done.
  - (* st_Lock *)
    move_unfold Hmove. destruct mx; simplify_eq/=.
    destruct (Hwait eq_refl eq_refl) as [-> ->].
    rewrite insert_insert_eq. split_and!; try done.
    + destruct ccall; simpl; lia.
    + left. by split_and!.
  - (* st_defer *)
    destruct (Hin eq_refl) as [-> [-> ->]]. move_unfold Hmove. simplify_eq/=.
    split_and!; try done.
    + destruct ccall; simpl; lia.
    + right; left. split_and!; try done. by exists md.
  - (* st_access *)
    destruct (Hin eq_refl) as [-> [-> ->]]. move_unfold Hmove.
    destruct ccall as [doc|did]; simpl in *.
    + rewrite decide_False in Hmove by apply not_elem_of_empty. simplify_eq/=.
      split_and!; try done. right; left. split_and!; try done.
      exists md. split; [done|]. split; [done|]. apply (right_id_L ∅ (∪)).
    + rewrite decide_False in Hmove by apply not_elem_of_empty. simplify_eq/=.
      split_and!; try done. right; left. split_and!; try done.
      exists md. split; [done|]. split_and!; try done.
      unfold resolved_entry. by destruct (md !! did).
  - (* st_assigning *)
    destruct ccall as [doc|did]; [|done].
    destruct (Hin eq_refl) as [-> [-> ->]]. move_unfold Hmove.
    rewrite decide_True in Hmove by by apply elem_of_singleton. simplify_eq/=.
    rewrite insert_insert_eq. split_and!; try done. right; left.
    split_and!; try done. eexists. split; [done|]. split_and!; try done.
    apply difference_diag_L.
  - (* st_return *)
    destruct (Hin eq_refl) as [-> (-> & -> & ->)]. move_unfold Hmove. simplify_eq/=.
    rewrite insert_insert_eq. split_and!; try done. right; right. by split_and!.
Qed.

Lemma caller_move_enabled (s : store) l c mx md mc mk :
  c_registry c = addr_of l ->
  (caller_phase c = Waiting /\ mx = Unlocked)
  \/ (caller_phase c = Inside /\ mx = Locked /\ caller_view c l md mc mk) ->
  is_Some (caller_move c (<[l := {| mu := mx; records := Some mc |}]> s) mk).
Proof.
  intros Hreg Hphase.
  destruct c as [creg ccall cst]. simpl in Hreg. subst creg.
  unfold caller_phase, caller_view in *. simpl in *.
  unfold caller_move, Lock, Unlock, map_assign, deref, bind, ret, panic. simpl.
  rewrite ?lookup_insert_eq. simpl.
  destruct cst as [| | | | r | msg | r | msg], Hphase as [[? ->]|(? & -> & Hv)];
    simpl in *; try done; try by eexists.
  all: destruct ccall as [doc|did]; simpl in *; try done;
    repeat case_decide; by eexists.
Qed.

Lemma done_has_caller_result c : caller_phase c = Done -> is_Some (caller_result c).
Proof.
  unfold caller_phase, caller_result.
  destruct (c_stage c); try done. by destruct (c_call c).
Qed.

Lemma caller_result_is_done c : is_Some (caller_result c) -> caller_phase c = Done.
Proof.
  unfold caller_phase, caller_result. destruct (c_stage c); try done; by intros [? ?].
Qed.

Lemma world_moves_left_go_world registry cs (s : store) :
  world_moves_left (go_world registry cs s) = sum_list (moves_of <$> cs).
Proof.
  unfold world_moves_left, go_world. simpl.
  induction cs as [|c cs IH]; [done|].
  rewrite !fmap_cons. change (sum_list (?x :: ?xs)) with (x + sum_list xs).
  by rewrite IH.
Qed.

Lemma run_world_nsteps sched : forall w w',
  run_world sched w = Some w' -> nsteps turns (length sched) w w'.
Proof.
  induction sched as [|i rest IH]; intros w w' Hrun; simpl in *.
  - simplify_eq. constructor.
  - destruct (let_move i w) as [w1|] eqn:Hi; [|done].
    apply nsteps_l with w1; [by exists i|by apply IH].
Qed.

Section fine.
Context (s : store) (l : positive).
Context (m : gmap string DIDDocument) (cs : list call).
Hypothesis Hl : s !! l = Some (registry_with m).

Lemma winv_go_world : winv s l m cs (go_world (addr_of l) cs s).
Proof using Hl.
  exists [], None, m. simpl. split_and!; try done.
  - symmetry. by apply insert_id.
  - by rewrite length_fmap.
  - constructor.
  - intros j Hj. by apply elem_of_nil in Hj.
  - intros j c Hj. rewrite list_lookup_fmap in Hj.
    destruct (cs !! j) as [c0|] eqn:Hc; simplify_eq/=.
    split_and!; try done.
    split; [done|]. intros H. by apply elem_of_nil in H.
Qed.

Lemma winv_let_move w i w' :
  winv s l m cs w -> let_move i w = Some w' ->
  winv s l m cs w' /\ world_moves_left w = S (world_moves_left w').
Proof using Type.
  intros (hist & owner & mc & Hmem & Hup & Hlen & Hnd & Hbound & Hcallers & Hres & Hown)
    Hstep.
  unfold let_move in Hstep. rewrite Hup in Hstep.
  destruct (callers w !! i) as [c|] eqn:Hi; [|done].
  destruct (caller_move c (heap w) (marks w)) as [lm|] eqn:Hmv; [|done].
  simplify_eq/=.
  destruct (Hcallers i c Hi) as (Hreg & Hcall & Hok & Hinside & Hdone).
  rewrite Hmem in Hmv.
  set (md := map_after (pick cs hist) m) in *.
  assert (caller_phase c = Inside ->
          mutex_of owner = Locked /\ caller_view c l md mc (marks w)) as Hin.
  { intros Hp. apply Hinside in Hp. subst owner. simpl in *.
    destruct Hown as (c0 & Hc0 & Hv). rewrite Hi in Hc0. by simplify_eq. }
  assert (caller_phase c = Waiting -> mutex_of owner = Unlocked ->
          mc = md /\ marks w = ∅) as Hwait.
  { intros _ Hfree. by destruct owner. }
  destruct (caller_move_kinds s l c _ md mc _ lm Hreg Hok Hin Hwait Hmv)
    as (Hnodown & Hrem & Hkind).
  split.
  2:{ unfold world_moves_left. simpl.
      pose proof (sum_list_fmap_insert caller_remaining _ _ _
                    (at_stage c (l_stage lm)) Hi). lia. }
  assert (i < length (callers w)) as Hilt by by eapply lookup_lt_Some.
  assert (i ∉ hist) as Hfresh.
  { intros Hh. apply Hdone in Hh.
    destruct Hkind as [(Hp & _)|[(Hp & _)|(Hp & _)]]; congruence. }
  destruct Hkind as [(Hw & Hin' & Hfree & Hst & Hmk & Hview)
                    |[(Hp & Hin' & mc' & Hst & Hview)
                     |(Hp & Hdone' & Hst & Hmk & Hmk0 & Hmc & Hresult)]].
  - (* the caller takes the mutex *)
    destruct owner as [o|]; [done|].
    exists hist, (Some i), mc. simpl. rewrite Hst, Hmk. split_and!; try done.
    + by rewrite length_insert.
    + intros j cj Hj. apply list_lookup_insert_Some in Hj as [(-> & <- & _)|(Hne & Hj)].
      * split_and!; try done; try congruence.
        all: try (split; [congruence|]; intros Hh; by apply Hfresh in Hh).
      * destruct (Hcallers j cj Hj) as (? & ? & ? & Hij & ?).
        split_and!; try done.
        split; [intros Hx; by apply Hij in Hx|]. intros [= <-]. done.
    + intros k j Hk. rewrite list_lookup_insert_ne; [by apply Hres|].
      intros <-. apply Hfresh. by eapply list_elem_of_lookup_2.
    + eexists. split; [by apply list_lookup_insert_eq|]. done.
  - (* the caller moves on inside *)
    assert (owner = Some i) as -> by by apply Hinside.
    exists hist, (Some i), mc'. simpl. rewrite Hst. split_and!; try done.
    + by rewrite length_insert.
    + intros j cj Hj. apply list_lookup_insert_Some in Hj as [(-> & <- & _)|(Hne & Hj)].
      * split_and!; try done; try congruence.
        all: try (split; [congruence|]; intros Hh; by apply Hfresh in Hh).
      * by apply Hcallers.
    + intros k j Hk. rewrite list_lookup_insert_ne; [by apply Hres|].
      intros <-. apply Hfresh. by eapply list_elem_of_lookup_2.
    + eexists. split; [by apply list_lookup_insert_eq|]. done.
  - (* the caller returns *)
    assert (owner = Some i) as -> by by apply Hinside.
    assert (length (results_of (pick cs hist) m) = length hist) as Hrl.
    { by rewrite results_of_length, pick_length. }
    exists (hist ++ [i]), None, mc. simpl.
    rewrite (pick_snoc _ _ _ _ Hcall), results_of_app, map_after_app, Hst, Hmk.
    split_and!; try done.
    + by rewrite length_insert.
    + apply NoDup_app. split_and!; [done| |apply NoDup_singleton].
      intros x Hx Hx'. apply list_elem_of_singleton in Hx'. by subst.
    + intros j Hj. apply elem_of_app in Hj as [Hj|Hj]; [by apply Hbound|].
      apply list_elem_of_singleton in Hj. subst. by rewrite <- Hlen.
    + intros j cj Hj. apply list_lookup_insert_Some in Hj as [(-> & <- & _)|(Hne & Hj)].
      * split_and!; try done; try congruence.
        all: try (split; [congruence|done]).
        all: try (split; [intros _|done]; apply elem_of_app; right;
                  by apply list_elem_of_singleton).
      * destruct (Hcallers j cj Hj) as (? & ? & ? & Hij & Hdj).
        split_and!; try done.
        -- split; [|done]. intros Hx. apply Hij in Hx. congruence.
        -- rewrite Hdj, elem_of_app, list_elem_of_singleton.
           split; [by left|]. intros [Hx|Hx]; [done|congruence].
    + intros k j Hk. apply lookup_snoc_Some in Hk as [[Hklt Hk]|[-> <-]].
      * rewrite lookup_app_l by lia.
        rewrite list_lookup_insert_ne; [by apply Hres|].
        intros <-. apply Hfresh. by eapply list_elem_of_lookup_2.
      * rewrite list_lookup_insert_eq by done. simpl.
        rewrite <- Hrl, list_lookup_middle by done. done.
Qed.

Lemma winv_nsteps n w0 w :
  nsteps turns n w0 w -> winv s l m cs w0 ->
  winv s l m cs w /\ world_moves_left w0 = n + world_moves_left w.
Proof using Type.
  induction 1 as [w|n w0 w1 w [i Hstep] _ IH]; intros Hinv; [done|].
  destruct (winv_let_move _ _ _ Hinv Hstep) as [Hinv1 Hm].
  destruct (IH Hinv1) as [Hinv2 Hm2]. split; [done|lia].
Qed.

Lemma winv_progress w :
  winv s l m cs w -> all_back w \/ exists w', turns w w'.
Proof using Type.
  intros (hist & owner & mc & Hmem & Hup & Hlen & Hnd & Hbound & Hcallers & Hres & Hown).
  set (md := map_after (pick cs hist) m) in *.
  assert (forall j c, callers w !! j = Some c -> c_registry c = addr_of l ->
            (caller_phase c = Waiting /\ mutex_of owner = Unlocked)
            \/ (caller_phase c = Inside /\ mutex_of owner = Locked
                /\ caller_view c l md mc (marks w)) ->
            exists w', turns w w') as Hmove.
  { intros j c Hj Hreg Hphase.
    destruct (caller_move_enabled s l c _ md mc (marks w) Hreg Hphase) as [lm Hmv].
    eexists. exists j. unfold let_move. by rewrite Hup, Hj, Hmem, Hmv. }
  destruct owner as [o|].
  - right. destruct Hown as (c & Ho & Hv).
    destruct (Hcallers o c Ho) as (Hreg & _ & _ & Hin & _).
    apply (Hmove o c Ho Hreg). right. split_and!; [by apply Hin|done|done].
  - destruct (Forall_Exists_dec (fun c => is_Some (caller_result c))
                (fun c => ~ is_Some (caller_result c))
                (fun c => decide (is_Some (caller_result c))) (callers w))
      as [Hall|Hex]; [by left|].
    right. apply Exists_exists in Hex as (c & Hin & Hnot).
    apply list_elem_of_lookup in Hin as [j Hj].
    destruct (Hcallers j c Hj) as (Hreg & _ & Hok & Hinside & _).
    apply (Hmove j c Hj Hreg). left. split; [|done].
    assert (caller_phase c <> Inside) as Hni.
    { intros Hx. by apply Hinside in Hx. }
    assert (caller_phase c <> Done) as Hnd'.
    { intros Hx. destruct Hnot. by apply done_has_caller_result. }
    by destruct (caller_phase c).
Qed.

Lemma winv_moves_left_0 w :
  winv s l m cs w -> world_moves_left w = 0 -> all_back w.
Proof using Type.
  intros (hist & owner & mc & _ & _ & _ & _ & _ & Hcallers & _) H0.
  apply Forall_forall. intros c Hin.
  pose proof (sum_list_0 caller_remaining (callers w) c H0 Hin) as Hr.
  destruct (proj1 (list_elem_of_lookup _ _) Hin) as [j Hj].
  destruct (Hcallers j c Hj) as (_ & _ & Hok & _).
  apply done_has_caller_result.
  unfold caller_remaining, caller_phase in *.
  destruct (c_stage c), (c_call c); simpl in *; done.
Qed.

Lemma winv_down w : winv s l m cs w -> down w = None.
Proof using Type. by intros (hist & owner & mc & _ & Hup & _). Qed.

Lemma winv_all_back w :
  winv s l m cs w -> all_back w ->
  exists order,
    order ≡ₚ seq 0 (length cs)
    /\ heap w = <[l := registry_with (map_after (pick cs order) m)]> s
    /\ marks w = ∅
    /\ forall k j, order !! k = Some j ->
         callers w !! j ≫= caller_result = results_of (pick cs order) m !! k.
Proof using Type.
  intros (hist & owner & mc & Hmem & Hup & Hlen & Hnd & Hbound & Hcallers & Hres & Hown)
    Hall.
  assert (forall j c, callers w !! j = Some c -> caller_phase c = Done) as Hdone.
  { intros j c Hj. apply caller_result_is_done.
    apply (proj1 (Forall_forall (fun c => is_Some (caller_result c)) _) Hall c).
    by eapply list_elem_of_lookup_2. }
  destruct owner as [o|].
  { destruct Hown as (c & Ho & _).
    destruct (Hcallers o c Ho) as (_ & _ & _ & Hin & _).
    pose proof (Hdone o c Ho) as Hd. destruct Hin as [_ Hin].
    specialize (Hin eq_refl). congruence. }
  destruct Hown as [-> Hmk]. exists hist. split_and!; [|done|done|done].
  apply NoDup_Permutation; [done|apply NoDup_seq|].
  intros j. rewrite elem_of_seq. split.
  - intros Hj. apply Hbound in Hj. lia.
  - intros [_ Hj]. destruct (lookup_lt_is_Some_2 (callers w) j) as [c Hc]; [lia|].
    destruct (Hcallers j c Hc) as (_ & _ & _ & _ & Hd). apply Hd. by eapply Hdone.
Qed.

End fine.

Lemma ids_determine (docs : list DIDDocument) d d' :
  NoDup (doc_ID <$> docs) -> d ∈ docs -> d' ∈ docs -> doc_ID d = doc_ID d' -> d = d'.
Proof.
  intros Hnd Hd Hd' Hid.
  apply list_elem_of_lookup in Hd as [i Hi]. apply list_elem_of_lookup in Hd' as [j Hj].
  assert (i = j) as ->.
  { apply (NoDup_lookup _ i j (doc_ID d) Hnd).
    - by rewrite list_lookup_fmap, Hi.
    - rewrite list_lookup_fmap, Hj. simpl. by rewrite Hid. }
  congruence.
Qed.

Lemma map_after_registrations docs order (m : gmap string DIDDocument) :
  NoDup (doc_ID <$> docs) ->
  order ≡ₚ seq 0 (length (Register <$> docs)) ->
  map_after (pick (Register <$> docs) order) m = insert_all docs m.
Proof.
  intros Hnd Hperm. pose proof (pick_Permutation _ _ Hperm) as Hpick.
  apply map_eq. intros k. rewrite map_after_lookup.
  destruct (decide (k ∈ doc_ID <$> docs)) as [Hin|Hnot].
  - apply list_elem_of_fmap in Hin as (d & -> & Hd).
    rewrite (insert_all_elem docs m d Hnd Hd).
    destruct (last_registered (doc_ID d) (pick (Register <$> docs) order))
      as [d'|] eqn:Hlast.
    + apply last_registered_Some in Hlast as [Hid Hin'].
      rewrite Hpick in Hin'. apply list_elem_of_fmap in Hin' as (d'' & [= <-] & Hd').
      f_equal. by apply (ids_determine docs).
    + exfalso. apply (last_registered_None _ _ d Hlast); [|done].
      rewrite Hpick. apply list_elem_of_fmap. by exists d.
  - rewrite insert_all_other by done.
    destruct (last_registered k (pick (Register <$> docs) order)) as [d'|] eqn:Hlast;
      [|done].
    apply last_registered_Some in Hlast as [Hid Hin'].
    rewrite Hpick in Hin'. apply list_elem_of_fmap in Hin' as (d'' & [= <-] & Hd').
    destruct Hnot. apply list_elem_of_fmap. by exists d'.
Qed.

Lemma sum_moves_registrations docs :
  sum_list (moves_of <$> (Register <$> docs)) = 5 * length docs.
Proof.
  induction docs as [|d docs IH]; [done|].
  rewrite !fmap_cons. change (sum_list (?x :: ?xs)) with (x + sum_list xs).
  rewrite IH. simpl. lia.
Qed.

Lemma sum_moves_bound cs : sum_list (moves_of <$> cs) <= 5 * length cs.
Proof.
  induction cs as [|c cs IH]; [done|].
  rewrite !fmap_cons. change (sum_list (?x :: ?xs)) with (x + sum_list xs).
  destruct c; simpl in *; lia.
Qed.

(** C7 (concurrent registration).  [N] goroutines call [RegisterDID] at
    the same time, one per document, on one registry at rest that holds
    [m]; the documents have distinct identifiers.  Whatever the order in
    which the goroutines move: the program never stops on an assignment
    that overlaps another (the mutex keeps them apart), nor on a panic;
    there are at most [5 * N] moves; as long as a call has not returned,
    some goroutine can move; after [5 * N] moves every call has returned.
    Then every call has returned nil, the map is [m] with every one of the
    [N] documents inserted, no update is lost, and [ResolveDID] returns
    each of them under its identifier. *)
Theorem concurrent_registration (s : store) l m docs n w :
  s !! l = Some (registry_with m) ->
  NoDup (doc_ID <$> docs) ->
  nsteps turns n (go_world (addr_of l) (Register <$> docs) s) w ->
  n <= 5 * length docs
  /\ down w = None
  /\ (all_back w \/ exists w', turns w w')
  /\ (n = 5 * length docs -> all_back w)
  /\ (all_back w ->
      Forall (fun c => caller_result c = Some (Registered None)) (callers w)
      /\ heap w = <[l := registry_with (insert_all docs m)]> s
      /\ forall d resolver,
           d ∈ docs -> registry resolver = addr_of l ->
           ResolveDID resolver (doc_ID d) (heap w)
           = Returned (addr_of d, true) (heap w)).
Proof.
  intros Hl Hnd Hsteps.
  destruct (winv_nsteps s l m _ n _ w Hsteps (winv_go_world s l m _ Hl))
    as [Hinv Hmoves].
  rewrite world_moves_left_go_world, sum_moves_registrations in Hmoves.
  split; [lia|]. split; [by eapply winv_down|].
  split; [by eapply winv_progress|].
  split; [intros ->; apply (winv_moves_left_0 s l m (Register <$> docs)); [done|lia]|].
  intros Hall.
  destruct (winv_all_back s l m _ w Hinv Hall) as (order & Hperm & Hheap & _ & Hres).
  rewrite (map_after_registrations docs order m Hnd Hperm) in Hheap.
  split_and!; [|done|].
  - apply Forall_forall. intros c Hc.
    apply list_elem_of_lookup in Hc as [j Hj].
    assert (j ∈ order) as Hjo.
    { rewrite Hperm, elem_of_seq.
      destruct Hinv as (_ & _ & _ & _ & _ & Hlen & _).
      apply lookup_lt_Some in Hj. lia. }
    apply list_elem_of_lookup in Hjo as [k Hk].
    specialize (Hres k j Hk). rewrite Hj in Hres. simpl in Hres. rewrite Hres.
    rewrite results_of_lookup.
    pose proof (pick_Permutation _ _ Hperm) as Hpick.
    destruct (pick (Register <$> docs) order !! k) as [c0|] eqn:Hpk.
    + apply list_elem_of_lookup_2 in Hpk. rewrite Hpick in Hpk.
      by apply list_elem_of_fmap in Hpk as (d & -> & _).
    + apply lookup_ge_None in Hpk. apply lookup_lt_Some in Hk.
      rewrite Hpick in Hpk. rewrite Hperm, length_seq in Hk. lia.
  - intros d resolver Hd Hres'. rewrite Hheap.
    rewrite (ResolveDID_at_rest _ resolver l _ _ Hres' (lookup_insert_eq _ _ _)) by done.
    simpl. by rewrite (insert_all_elem docs m d Hnd Hd).
Qed.

(** X13 (concurrent calls are atomic).  Goroutines call the two methods at
    the same time, one per call of the list, on one registry at rest whose
    map is made.  The program never stops on overlapping accesses to the
    map, and some goroutine can move until all calls have returned.  When
    they have, there is an order of the calls such that performing them
    one after the other in that order, on the registry as it was, returns
    to each call what it has returned and leaves the store that the
    concurrent run has left. *)
Theorem concurrent_calls_linearizable (s : store) l m cs n w :
  s !! l = Some (registry_with m) ->
  nsteps turns n (go_world (addr_of l) cs s) w ->
  down w = None
  /\ (all_back w \/ exists w', turns w w')
  /\ (all_back w ->
      exists order rs,
        order ≡ₚ seq 0 (length cs)
        /\ perform_all (addr_of l) (pick cs order) s = Returned rs (heap w)
        /\ length rs = length cs
        /\ forall k j, order !! k = Some j ->
             callers w !! j ≫= caller_result = rs !! k).
Proof.
  intros Hl Hsteps.
  destruct (winv_nsteps s l m cs n _ w Hsteps (winv_go_world s l m cs Hl))
    as [Hinv _].
  split; [by eapply winv_down|]. split; [by eapply winv_progress|].
  intros Hall.
  destruct (winv_all_back s l m cs w Hinv Hall) as (order & Hperm & Hheap & _ & Hres).
  exists order, (results_of (pick cs order) m). split_and!; [done| | |done].
  - rewrite Hheap. by apply perform_all_at_rest.
  - rewrite results_of_length. by rewrite (pick_Permutation _ _ Hperm).
Qed.



(** X17 (no access to the map overlaps an assignment).  In every state
    that the concurrent calls can reach, the program has not stopped with
    [concurrent map writes] or [concurrent map read and map write]; at
    most one goroutine is between [Lock] and [Unlock]; and the map is
    marked as being assigned to only while a goroutine is between the
    begin and the end of its assignment. *)
Theorem concurrent_accesses_do_not_overlap (s : store) l m cs n w :
  s !! l = Some (registry_with m) ->
  nsteps turns n (go_world (addr_of l) cs s) w ->
  down w = None
  /\ (forall i j ci cj,
        callers w !! i = Some ci -> callers w !! j = Some cj ->
        caller_phase ci = Inside -> caller_phase cj = Inside -> i = j)
  /\ (marks w <> ∅ ->
      marks w = {[l]}
      /\ exists i c, callers w !! i = Some c /\ c_stage c = st_assigning).
Proof.
  intros Hl Hsteps.
  destruct (winv_nsteps s l m cs n _ w Hsteps (winv_go_world s l m cs Hl))
    as [(hist & owner & mc & _ & Hup & _ & _ & _ & Hcallers & _ & Hown) _].
  split; [done|]. split.
  - intros i j ci cj Hi Hj Hpi Hpj.
    destruct (Hcallers i ci Hi) as (_ & _ & _ & Hii & _).
    destruct (Hcallers j cj Hj) as (_ & _ & _ & Hjj & _).
    apply Hii in Hpi. apply Hjj in Hpj. congruence.
  - intros Hmk. destruct owner as [o|]; [|by destruct Hown].
    destruct Hown as (c & Ho & Hv). unfold caller_view in Hv.
    destruct (c_stage c) eqn:Hst; try (by destruct Hv); try (by destruct Hv as (_ & _ & ?)).
    destruct Hv as [_ Hv]. split; [done|]. by exists o, c.
Qed.

Lemma sample_world_run :
  run_world sample_turns
    (go_world (addr_of 1%positive) (Register <$> [alice; bob]) sample_store)
  = Some sample_world_back.
Proof. vm_compute. reflexivity. Qed.

Lemma sample_calls_world_run :
  run_world sample_calls_turns (go_world (addr_of 1%positive) sample_calls sample_store)
  = Some sample_calls_back.
Proof. vm_compute. reflexivity. Qed.

Lemma sample_assigning_run :
  run_world [2; 2; 2] (go_world (addr_of 1%positive) sample_calls sample_store)
  = Some sample_assigning.
Proof. vm_compute. reflexivity. Qed.

(** * The flow of [main]; the two methods in every state *)

(** X1 (the flow of [main]).  [main] returns.  When the key pair could
    not be generated it prints that error and the store is untouched.
    Otherwise it prints the document it has built, read back from a newly
    allocated registry that then holds this document and nothing else; it
    prints neither a registration error nor that the DID was not found. *)
Theorem main_prints controllerKey (s : store) :
  exists out s',
    main controllerKey s = Returned out s'
    /\ match controllerKey with
       | inr err => out = Error_creating_controller err /\ s' = s
       | inl publicKeyBytes =>
           let doc := main_doc publicKeyBytes in
           out = Resolved_DID_Document (addr_of doc)
           /\ s !! fresh (dom s) = None
           /\ s' = <[fresh (dom s) := registry_with {[ doc_ID doc := doc ]}]> s
       end.
Proof.
  destruct controllerKey as [publicKeyBytes|err].
  - eexists _, _. split; [|split; [reflexivity|split; [|reflexivity]]].
    + unfold main, alloc, bind.
      rewrite (RegisterDID_at_rest _ (fresh (dom s)) ∅) by apply lookup_insert_eq.
      rewrite (ResolveDID_at_rest _ {| registry := addr_of (fresh (dom s)) |}
                 (fresh (dom s)) _ _ eq_refl (lookup_insert_eq _ _ _)) by done.
      simpl. rewrite lookup_insert_eq. simpl. unfold ret.
      by rewrite insert_insert_eq.
    + apply not_elem_of_dom. apply is_fresh.
  - by eexists _, _.
Qed.

(** X2 ([RegisterDID] in every state).  Through a nil pointer the call
    panics on the dereference; on a held mutex it blocks; on a nil map it
    panics on the assignment and leaves the store as it was; otherwise it
    returns nil and the store differs only in that the map of the
    receiver has the document under its identifier. *)
Theorem RegisterDID_every_state registry d (s : store) :
  RegisterDID registry d s
  = match registry with
    | nil_ptr => Panicked nil_dereference s
    | addr_of l =>
        match s !! l with
        | None => Panicked nil_dereference s
        | Some r =>
            match mu r with
            | Locked => Blocked
            | Unlocked =>
                match records r with
                | None => Panicked "assignment to entry in nil map" s
                | Some m =>
                    Returned None
                      (<[l := {| mu := Unlocked;
                                 records := Some (<[doc_ID d := d]> m) |}]> s)
                end
            end
        end
    end.
Proof.
  rewrite RegisterDID_eq. unfold RegisterDID_cases.
  destruct registry as [|l]; [done|].
  destruct (s !! l) as [r|]; [|done].
  destruct (mu r); [|done]. by destruct (records r).
Qed.

(** X3 ([ResolveDID] through a resolver, in every store).  The receiver is
    a resolver, not a nil [*DIDResolver].  When its registry pointer is
    nil the call panics on the dereference; on a held mutex it blocks;
    otherwise it returns, with the store as it was, the stored document
    and [true], or the zero document and [false] (on a nil map for every
    identifier). *)
Theorem ResolveDID_every_store resolver did (s : store) :
  ResolveDID resolver did s
  = match registry resolver with
    | nil_ptr => Panicked nil_dereference s
    | addr_of l =>
        match s !! l with
        | None => Panicked nil_dereference s
        | Some r =>
            match mu r with
            | Locked => Blocked
            | Unlocked =>
                match stored (records r) did with
                | Some doc => Returned (addr_of doc, true) s
                | None => Returned (addr_of zero_DIDDocument, false) s
                end
            end
        end
    end.
Proof.
  rewrite ResolveDID_eq. unfold ResolveDID_cases.
  destruct (registry resolver) as [|l]; [done|].
  destruct (s !! l) as [r|]; [|done].
  destruct (mu r); [|done].
  rewrite map_index_stored. by destruct (stored (records r) did).
Qed.

(** * The properties at the sample data *)

Lemma sample_locked_run :
  run_program [2] (go_calls (addr_of 1%positive) sample_calls sample_store)
  = Some sample_locked.
Proof. vm_compute. reflexivity. Qed.


Lemma resolved_was_registered_witness :
  exists rs m',
    perform_all (addr_of 1%positive) sample_calls sample_store
    = Returned rs (<[1%positive := registry_with m']> sample_store)
    /\ keyed m'
    /\ forall k did p,
         sample_calls !! k = Some (Resolve did) ->
         rs !! k = Some (Resolved p true) ->
         exists doc, p = addr_of doc /\ doc_ID doc = did
                     /\ ((∅ : gmap string DIDDocument) !! did = Some doc
                         \/ Register doc ∈ take k sample_calls).
Proof.
  exact (resolved_was_registered sample_store 1 ∅ sample_calls eq_refl keyed_empty).
Defined.

Lemma sample_alice_registered :
  is_Some (({[ "did:example:alice" := alice ]} : gmap string DIDDocument)
             !! "did:example:alice").
Proof. exists alice. reflexivity. Qed.

Lemma registered_stays_registered_witness :
  exists doc s',
    (perform_all (addr_of 1%positive) sample_calls ;;
     ResolveDID sample_resolver "did:example:alice") sample_store_alice
    = Returned (addr_of doc, true) s'.
Proof.
  exact (registered_stays_registered sample_store_alice 1 _ sample_calls
           "did:example:alice" eq_refl sample_alice_registered).
Defined.

Lemma register_one_key_witness :
  exists m',
    RegisterDID (addr_of 1%positive) alice2 sample_store_alice
    = Returned None (<[1%positive := registry_with m']> sample_store_alice)
    /\ dom m' = {[doc_ID alice2]} ∪ dom ({[ "did:example:alice" := alice ]}
                                          : gmap string DIDDocument)
    /\ size m' = match ({[ "did:example:alice" := alice ]} : gmap string DIDDocument)
                       !! doc_ID alice2 with
                 | Some _ => size ({[ "did:example:alice" := alice ]}
                                   : gmap string DIDDocument)
                 | None => S (size ({[ "did:example:alice" := alice ]}
                                    : gmap string DIDDocument))
                 end.
Proof. exact (register_one_key sample_store_alice 1 _ alice2 eq_refl). Defined.

Lemma register_commute_witness :
  doc_ID alice <> doc_ID bob
  /\ (RegisterDID (addr_of 1%positive) alice ;; RegisterDID (addr_of 1%positive) bob)
       sample_store
     = (RegisterDID (addr_of 1%positive) bob ;; RegisterDID (addr_of 1%positive) alice)
         sample_store.
Proof.
  assert (doc_ID alice <> doc_ID bob) as Hne by (vm_compute; discriminate).
  split; [exact Hne|].
  exact (register_commute (addr_of 1%positive) sample_store alice bob Hne).
Defined.

Lemma concurrent_calls_finish_witness :
  12 <= 4 * length sample_calls
  /\ (all_done sample_done \/ exists c', moves sample_done c')
  /\ (12 = 4 * length sample_calls -> all_done sample_done).
Proof.
  exact (concurrent_calls_finish sample_store 1 ∅ sample_calls 12 sample_done eq_refl
           (run_program_nsteps sample_dispatch _ _ sample_program_run)).
Defined.

Lemma concurrent_calls_exclude_witness :
  thread_phase (Registering (goto (call_RegisterDID (addr_of 1%positive) alice2) line49))
  = Inside
  /\ 2 = 2.
Proof.
  split; [reflexivity|].
  exact (concurrent_calls_exclude sample_store 1 ∅ sample_calls 1 sample_locked 2 2
           _ _ eq_refl (run_program_nsteps [2] _ _ sample_locked_run)
           eq_refl eq_refl eq_refl eq_refl).
Defined.

Lemma concurrent_registration_witness :
  10 <= 5 * length [alice; bob]
  /\ down sample_world_back = None
  /\ (all_back sample_world_back \/ exists w', turns sample_world_back w')
  /\ (10 = 5 * length [alice; bob] -> all_back sample_world_back)
  /\ (all_back sample_world_back ->
      Forall (fun c => caller_result c = Some (Registered None))
        (callers sample_world_back)
      /\ heap sample_world_back
         = <[1%positive := registry_with (insert_all [alice; bob] ∅)]> sample_store
      /\ forall d resolver,
           d ∈ [alice; bob] -> registry resolver = addr_of 1%positive ->
           ResolveDID resolver (doc_ID d) (heap sample_world_back)
           = Returned (addr_of d, true) (heap sample_world_back)).
Proof.
  exact (concurrent_registration sample_store 1 ∅ [alice; bob] 10 sample_world_back
           eq_refl sample_ids_distinct
           (run_world_nsteps sample_turns _ _ sample_world_run)).
Defined.

Lemma concurrent_calls_linearizable_witness :
  down sample_calls_back = None
  /\ (all_back sample_calls_back \/ exists w', turns sample_calls_back w')
  /\ (all_back sample_calls_back ->
      exists order rs,
        order ≡ₚ seq 0 (length sample_calls)
        /\ perform_all (addr_of 1%positive) (pick sample_calls order) sample_store
           = Returned rs (heap sample_calls_back)
        /\ length rs = length sample_calls
        /\ forall k j, order !! k = Some j ->
             callers sample_calls_back !! j ≫= caller_result = rs !! k).
Proof.
  exact (concurrent_calls_linearizable sample_store 1 ∅ sample_calls 14 sample_calls_back
           eq_refl (run_world_nsteps sample_calls_turns _ _ sample_calls_world_run)).
Defined.



Lemma concurrent_accesses_do_not_overlap_witness :
  down sample_assigning = None
  /\ (forall i j ci cj,
        callers sample_assigning !! i = Some ci ->
        callers sample_assigning !! j = Some cj ->
        caller_phase ci = Inside -> caller_phase cj = Inside -> i = j)
  /\ (marks sample_assigning <> ∅ ->
      marks sample_assigning = {[1%positive]}
      /\ exists i c, callers sample_assigning !! i = Some c
                     /\ c_stage c = st_assigning).
Proof.
  exact (concurrent_accesses_do_not_overlap sample_store 1 ∅ sample_calls 3
           sample_assigning eq_refl
           (run_world_nsteps [2; 2; 2] _ _ sample_assigning_run)).
Defined.

